(** * Neighborly senior helper: retrieval, prompt, generator, fallback, ingestion

    A shallow embedding of [server/index.js] and [scripts/csv-to-json.mjs],
    followed by the properties of the answer pipeline and of the ingestion
    filter. *)

From Stdlib Require Import String Ascii.
From Stdlib Require Import List NArith ZArith Bool Arith Lia.
From Stdlib Require Import Permutation Sorted.
Import ListNotations.

Set Implicit Arguments.

(* ====================================================================== *)
(** * JavaScript strings and values *)
(* ====================================================================== *)

(** A JavaScript string is a sequence of UTF-16 code units. *)
Definition jstring := list N.

(** ASCII literal, one code unit per character. *)
Definition u (s : string) : jstring :=
  map N_of_ascii (list_ascii_of_string s).

Definition jstring_eqb (a b : jstring) : bool :=
  if list_eq_dec N.eq_dec a b then true else false.

(** Code units used by the templates that have no ASCII literal. *)
Definition DQUOTE : N := 34.           (* the double quote *)
Definition LF : N := 10.               (* line feed *)
Definition RSQUO : N := 8217.          (* U+2019, the apostrophe of the apology *)
Definition EMDASH : N := 8212.         (* U+2014 *)
Definition ENDASH : N := 8211.         (* U+2013 *)

(** ECMAScript WhiteSpace and LineTerminator: what [\s] matches and what
    [String.prototype.trim] strips. *)
Definition isSpace (c : N) : bool :=
  existsb (N.eqb c)
    [9; 10; 11; 12; 13; 32; 160; 5760; 8232; 8233; 8239; 8287; 12288; 65279]%N
  || ((8192 <=? c)%N && (c <=? 8202)%N).

Fixpoint trimStart (s : jstring) : jstring :=
  match s with
  | c :: s' => if isSpace c then trimStart s' else s
  | [] => []
  end.

Definition trimEnd (s : jstring) : jstring := rev (trimStart (rev s)).

(** [String.prototype.trim]. *)
Definition trim (s : jstring) : jstring := trimEnd (trimStart s).

Fixpoint startsWith (s t : jstring) {struct t} : bool :=
  match t, s with
  | [], _ => true
  | _ :: _, [] => false
  | c :: t', d :: s' => N.eqb c d && startsWith s' t'
  end.

(** [String.prototype.includes]: [t] occurs in [s] as a run of code units. *)
Fixpoint includes (s t : jstring) : bool :=
  startsWith s t ||
  match s with
  | [] => false
  | _ :: s' => includes s' t
  end.

(** [Array.prototype.join] on an array of strings. *)
Fixpoint join (sep : jstring) (l : list jstring) : jstring :=
  match l with
  | [] => []
  | [x] => x
  | x :: rest => x ++ sep ++ join sep rest
  end.

(** [s.split(c)] for a one-unit separator [c]: never the empty array. *)
Fixpoint split_on (sep : N) (s : jstring) : list jstring :=
  match s with
  | [] => [[]]
  | c :: s' =>
      if N.eqb c sep then [] :: split_on sep s'
      else match split_on sep s' with
           | h :: t => (c :: h) :: t
           | [] => [[c]]
           end
  end.

(** [s.split(/\s+/)]: the pieces between maximal runs of white space; a
    leading or trailing run leaves an empty piece at that end. *)
Fixpoint split_ws (s : jstring) : list jstring :=
  match s with
  | [] => [[]]
  | c :: s' =>
      if isSpace c then
        match s' with
        | d :: _ => if isSpace d then split_ws s' else [] :: split_ws s'
        | [] => [] :: split_ws s'
        end
      else match split_ws s' with
           | h :: t => (c :: h) :: t
           | [] => [[c]]
           end
  end.

(** Truthiness of a string: [Boolean(s)]. *)
Definition nonEmpty (s : jstring) : bool :=
  match s with [] => false | _ :: _ => true end.

(** A property that holds a string or is missing ([undefined]). *)
Definition jsprop := option jstring.

Definition truthy (v : jsprop) : bool :=
  match v with Some s => nonEmpty s | None => false end.

(** [v || d] for a string default [d]. *)
Definition orElse (v : jsprop) (d : jstring) : jstring :=
  match v with
  | Some (c :: s) => c :: s
  | _ => d
  end.

(** [`${v}`]: interpolation of a property in a template literal. *)
Definition tpl (v : jsprop) : jstring :=
  match v with Some s => s | None => u "undefined" end.

(** [[...].filter(Boolean)] on an array of string properties. *)
Fixpoint filterBoolean (l : list jsprop) : list jstring :=
  match l with
  | [] => []
  | Some (c :: s) :: rest => (c :: s) :: filterBoolean rest
  | _ :: rest => filterBoolean rest
  end.

(** [String.prototype.toLowerCase] on strings of ASCII code units; the full
    Unicode mapping of the engine is a parameter of the retrieval code. *)
Definition asciiLowerUnit (c : N) : N :=
  if ((65 <=? c) && (c <=? 90))%N then (c + 32)%N else c.

Definition asciiToLowerCase (s : jstring) : jstring := map asciiLowerUnit s.

(** A value of a parsed JSON request body. Arrays and objects are kept
    opaque: both are truthy and neither has string methods. *)
Inductive jsval : Type :=
| JUndefined
| JNull
| JBool (b : bool)
| JNum (n : Z)
| JStr (s : jstring)
| JObject.

Definition jsTruthy (v : jsval) : bool :=
  match v with
  | JUndefined | JNull => false
  | JBool b => b
  | JNum n => negb (Z.eqb n 0)
  | JStr s => nonEmpty s
  | JObject => true
  end.

(** [Array.prototype.sort(cmp)]: stable (ECMAScript 2019), [a] stays before
    [b] unless [cmp a b > 0]. *)
Section Sort.
Variable A : Type.
Variable cmp : A -> A -> Z.

Fixpoint sort_insert (x : A) (l : list A) : list A :=
  match l with
  | [] => [x]
  | y :: l' => if (0 <? cmp x y)%Z then y :: sort_insert x l' else x :: y :: l'
  end.

Definition js_sort (l : list A) : list A := fold_right sort_insert [] l.
End Sort.

(** [Array.prototype.slice(0, n)]. *)
Definition slice0 (A : Type) (n : nat) (l : list A) : list A := firstn n l.

(* ====================================================================== *)
(** * The directory and the keyword retriever ([server/index.js]) *)
(* ====================================================================== *)

Record ServiceRecord : Type := mkRecord {
  town : jsprop;
  category : jsprop;
  name : jsprop;
  address : jsprop;
  phone : jsprop;
  hours : jsprop;
  area : option (list jstring);
  url : jsprop;
  notes : jsprop
}.

Record ScoredRecord : Type := mkScored {
  item : ServiceRecord;
  score : nat
}.

(** [(a, b) => b.score - a.score] *)
Definition byScoreDesc (a b : ScoredRecord) : Z :=
  (Z.of_nat (score b) - Z.of_nat (score a))%Z.

Section Retrieval.
Variable toLowerCase : jstring -> jstring.

(** [(question || '').toLowerCase().split(/\s+/).filter(Boolean)] *)
Definition tokenize (question : jsprop) : list jstring :=
  filter nonEmpty (split_ws (toLowerCase (orElse question []))).

(** [(townPref || '').toLowerCase()] *)
Definition townKey (townPref : jsprop) : jstring :=
  toLowerCase (orElse townPref []).

Definition haystack (d : ServiceRecord) : jstring :=
  toLowerCase
    (join (u " ") (filterBoolean [town d; category d; name d; address d; notes d])).

(** [!tp || (d.town || '').toLowerCase().includes(tp)] *)
Definition townOk (tp : jstring) (d : ServiceRecord) : bool :=
  negb (nonEmpty tp) || includes (toLowerCase (orElse (town d) [])) tp.

(** [for (const t of tokens) if (hay.includes(t)) score++] *)
Definition countHits (hay : jstring) (tokens : list jstring) : nat :=
  fold_left (fun sc t => if includes hay t then S sc else sc) tokens 0.

(** One turn of the loop over [data]: [continue] on a town mismatch,
    [scored.push] when the score is positive. *)
Definition scoreStep (tokens : list jstring) (tp : jstring)
           (scored : list ScoredRecord) (d : ServiceRecord) : list ScoredRecord :=
  let hay := haystack d in
  if negb (townOk tp d) then scored
  else
    let sc := countHits hay tokens in
    if 0 <? sc then scored ++ [mkScored d sc] else scored.

Definition keywordRetrieve (data : list ServiceRecord)
           (question townPref : jsprop) : list ScoredRecord :=
  let tokens := tokenize question in
  let tp := townKey townPref in
  let scored := fold_left (scoreStep tokens tp) data [] in
  if (length scored =? 0) then
    let fallback := slice0 2 (filter (townOk tp) data) in
    map (fun it => mkScored it 1) fallback
  else slice0 2 (js_sort byScoreDesc scored).
End Retrieval.

(* ====================================================================== *)
(** * The deterministic fallback paragraph *)
(* ====================================================================== *)

(** [parts.push(x)] *)
Definition push (A : Type) (parts : list A) (x : A) : list A := parts ++ [x].

(** [if (c) parts.push(x)] *)
Definition pushIf (A : Type) (c : bool) (parts : list A) (x : A) : list A :=
  if c then push parts x else parts.

Definition apology (townPref : jsprop) : jstring :=
  u "I couldn" ++ [RSQUO] ++ u "t find a match"
  ++ (if truthy townPref then u " in " ++ tpl townPref else [])
  ++ u ". Please try a different town or category, or use the links in the sources below.".

Definition writeFallbackParagraph (scored : list ScoredRecord)
           (question townPref : jsprop) : jstring :=
  match scored with
  | [] => apology townPref
  | s0 :: _ =>
      let it := item s0 in
      let parts := [] in
      let parts := push parts (tpl (name it) ++ u " serves " ++ tpl (town it) ++ u ".") in
      let parts := pushIf (truthy (notes it)) parts (tpl (notes it)) in
      let parts := pushIf (truthy (hours it)) parts (u "Hours: " ++ tpl (hours it) ++ u ".") in
      let parts := pushIf (truthy (address it)) parts (u "Address: " ++ tpl (address it) ++ u ".") in
      let parts := push parts (u "Phone: " ++ orElse (phone it) (u "N/A") ++ u ".") in
      let parts := pushIf (truthy (url it)) parts (u "More info: " ++ tpl (url it)) in
      join (u " ") parts
  end.

(* ====================================================================== *)
(** * Guardrails and prompt *)
(* ====================================================================== *)

Definition guardrails : jstring :=
  trim
    ([LF]
     ++ u "You are a warm, calm assistant for seniors and caregivers." ++ [LF]
     ++ u "Be very kind, simple, and concise " ++ [EMDASH] ++ u " reply with 2"
     ++ [ENDASH] ++ u "4 short sentences in plain language." ++ [LF]
     ++ u "Only use phone numbers, addresses, hours, and links that appear in the "
     ++ [DQUOTE] ++ u "Local Directory" ++ [DQUOTE] ++ u " below." ++ [LF]
     ++ u "If a detail is missing, say you don't have it and suggest visiting the provided link."
     ++ [LF]
     ++ u "Do not ask to open websites. If the user states an emergency, advise calling 911."
     ++ [LF] ++ u "  ").

(** One entry of [scored.map(s => ...)]. *)
Definition contextLine (s : ScoredRecord) : jstring :=
  let it := item s in
  (u "- [" ++ tpl (category it) ++ u "] " ++ orElse (name it) (u "(name not provided)")
   ++ u " " ++ [EMDASH] ++ u " Phone: " ++ orElse (phone it) (u "N/A") ++ u "; ")
  ++ (if truthy (address it) then u "Address: " ++ tpl (address it) ++ u "; " else [])
  ++ (u "Hours: " ++ orElse (hours it) (u "N/A") ++ u "; Area: "
      ++ join (u ", ") (match area it with Some a => a | None => [] end) ++ u "; ")
  ++ ((if truthy (url it) then u "Link: " ++ tpl (url it) ++ u "; " else [])
      ++ (if truthy (notes it) then u "Notes: " ++ tpl (notes it) else [])).

Definition contextLines (scored : list ScoredRecord) : jstring :=
  join [LF] (map contextLine scored).

(** [contextLines || '(no matches)'] *)
Definition directorySection (scored : list ScoredRecord) : jstring :=
  orElse (Some (contextLines scored)) (u "(no matches)").

Definition promptClosing : jstring :=
  u "Write a short **paragraph** (not a list). Mention up to 2 relevant services. Avoid repeating the exact same phrasing each time.".

Definition buildPrompt (question townPref : jsprop) (scored : list ScoredRecord) : jstring :=
  trim
    ([LF]
     ++ guardrails ++ [LF]
     ++ [LF]
     ++ u "User question: " ++ [DQUOTE; DQUOTE; DQUOTE] ++ tpl question
     ++ [DQUOTE; DQUOTE; DQUOTE] ++ [LF]
     ++ (if truthy townPref then u "Preferred town: " ++ tpl townPref else []) ++ [LF]
     ++ [LF]
     ++ u "Local Directory:" ++ [LF]
     ++ directorySection scored ++ [LF]
     ++ promptClosing ++ [LF]).

(* ====================================================================== *)
(** * The generator: process state, exceptions, one retry *)
(* ====================================================================== *)

(** What a [catch] clause receives: the two properties the code reads. *)
Record JsError : Type := mkError {
  statusText : jsprop;
  message : jsprop
}.

(** [new Error(msg)] and the engine's [TypeError]: a message, no status. *)
Definition newError (msg : jstring) : JsError := mkError None (Some msg).

(** The module-level variables [chatModel] and [currentModelName].
    [chatModel] is the client, known by the model name it is bound to.
    [calls] is a ghost log of the completion requests sent so far, one
    (model, prompt) pair per request. *)
Record GenState : Type := mkGen {
  chatModel : option jstring;
  currentModelName : jstring;
  calls : list (jstring * jstring)
}.

Inductive outcome (A : Type) : Type :=
| Return (a : A)
| Throw (e : JsError).
Arguments Return {A} a.
Arguments Throw {A} e.

(** Computations that read and write the process state and may throw; a
    throw keeps the writes made before it. *)
Definition M (A : Type) : Type := GenState -> outcome A * GenState.

Definition ret (A : Type) (a : A) : M A := fun st => (Return a, st).

Definition throw (A : Type) (e : JsError) : M A := fun st => (Throw e, st).

Definition bind (A B : Type) (c : M A) (k : A -> M B) : M B :=
  fun st =>
    match c st with
    | (Return a, st') => k a st'
    | (Throw e, st') => (Throw e, st')
    end.

(** [try { c } catch (e) { h e }] *)
Definition tryCatch (A : Type) (c : M A) (h : JsError -> M A) : M A :=
  fun st =>
    match c st with
    | (Return a, st') => (Return a, st')
    | (Throw e, st') => h e st'
    end.

Definition getState : M GenState := fun st => (Return st, st).

Arguments ret {A} a.
Arguments throw {A} e.
Arguments bind {A B} c k.
Arguments tryCatch {A} c h.

Declare Scope js_scope.
Delimit Scope js_scope with js.
Notation "x <- c ;; k" := (bind c (fun x => k))
  (at level 61, c at next level, right associativity) : js_scope.
Notation "c ;; k" := (bind c (fun _ => k))
  (at level 61, right associativity) : js_scope.
Local Open Scope js_scope.

Definition DEFAULT_MODEL : jstring := u "gemini-2.0-flash".

(** The SDK constructors only record the key and the model name. *)
Definition initModel (name : jstring) : M unit :=
  fun st => (Return tt, mkGen (Some name) name (calls st)).

(** A code unit against a lower-case ASCII pattern unit, as the [i] flag
    compares them. *)
Fixpoint startsWithCI (s pat : jstring) {struct pat} : bool :=
  match pat, s with
  | [], _ => true
  | _ :: _, [] => false
  | p :: pat', c :: s' => N.eqb (asciiLowerUnit c) p && startsWithCI s' pat'
  end.

(** [/not\s*found|404/] anchored at the head of [s]. *)
Definition notFoundHere (s : jstring) : bool :=
  (startsWithCI s (u "not") && startsWithCI (trimStart (skipn 3 s)) (u "found"))
  || startsWith s (u "404").

(** [/not\s*found|404/i.test(msg)] *)
Fixpoint isNotFound (msg : jstring) : bool :=
  notFoundHere msg ||
  match msg with
  | [] => false
  | _ :: rest => isNotFound rest
  end.

(** [err?.statusText || err?.message || ''] *)
Definition errorText (err : JsError) : jstring :=
  orElse (statusText err) (orElse (message err) []).

Section Generator.
(** The completion service: what the [n]-th request of the process, sent
    for [model] with [prompt], comes back with, either the text of the
    response or the error of the rejected call. *)
Variable service : nat -> jstring -> jstring -> outcome jstring.

(** [(await chatModel.generateContent(...)).response.text()] *)
Definition generateContent (model prompt : jstring) : M jstring :=
  fun st =>
    (service (length (calls st)) model prompt,
     mkGen (chatModel st) (currentModelName st) (calls st ++ [(model, prompt)])).

Definition generateWithRetry (prompt : jstring) : M jstring :=
  st <- getState ;;
  match chatModel st with
  | None => throw (newError (u "Gemini model not initialized"))
  | Some model =>
      tryCatch (generateContent model prompt)
        (fun err =>
           let msg := errorText err in
           st1 <- getState ;;
           if isNotFound msg && negb (jstring_eqb (currentModelName st1) DEFAULT_MODEL)
           then
             initModel DEFAULT_MODEL ;;
             st2 <- getState ;;
             match chatModel st2 with
             | Some model2 => generateContent model2 prompt
             | None => throw (newError (u "chatModel is null"))
             end
           else throw err)
  end.

(* ====================================================================== *)
(** * The answer endpoint *)
(* ====================================================================== *)

Record AskBody : Type := mkBody {
  question : jsval;
  townPref : jsval
}.

Inductive ResponseBody : Type :=
| ErrorBody (error : jstring)
| AnswerBody (answer : jstring) (sources : list ServiceRecord).

Record Response : Type := mkResponse {
  status : nat;
  body : ResponseBody
}.

(** [v.trim()]: a string method, a [TypeError] on anything else. *)
Definition callTrim (v : jsval) : M jstring :=
  match v with
  | JStr s => ret (trim s)
  | _ => throw (newError (u "trim is not a function"))
  end.

(** [(v || '')] as the receiver of [toLowerCase]: the string itself, the
    empty string for a falsy value, a [TypeError] for any other value. *)
Definition orEmptyString (v : jsval) : M jstring :=
  match v with
  | JStr s => ret s
  | _ => if jsTruthy v then throw (newError (u "toLowerCase is not a function"))
         else ret []
  end.

(** A request value as the templates see it once retrieval has accepted it. *)
Definition asProp (v : jsval) : jsprop :=
  match v with
  | JStr s => Some s
  | _ => None
  end.

Variable toLowerCase : jstring -> jstring.

(** [keywordRetrieve] called on raw request values. *)
Definition keywordRetrieveJs (data : list ServiceRecord) (q tp : jsval)
  : M (list ScoredRecord) :=
  q' <- orEmptyString q ;;
  tp' <- orEmptyString tp ;;
  ret (keywordRetrieve toLowerCase data (Some q') (Some tp')).

Definition missingQuestion : Response :=
  mkResponse 400 (ErrorBody (u "Missing question")).

Definition noDataLoaded : Response :=
  mkResponse 503 (ErrorBody (u "No data loaded. Run the ingestion script.")).

Definition serverError : Response :=
  mkResponse 500 (ErrorBody (u "Server error")).

(** [app.post('/api/ask', ...)] for one request, run to completion. *)
Definition askHandler (data : list ServiceRecord) (req : AskBody) : M Response :=
  tryCatch
    (let question := question req in
     let townPref := townPref req in
     blank <- (if negb (jsTruthy question) then ret true
               else t <- callTrim question ;; ret (negb (nonEmpty t))) ;;
     if blank then ret missingQuestion
     else if length data =? 0 then ret noDataLoaded
     else
       scored <- keywordRetrieveJs data question townPref ;;
       let prompt := buildPrompt (asProp question) (asProp townPref) scored in
       st <- getState ;;
       answer <- match chatModel st with
                 | Some _ =>
                     tryCatch (t <- generateWithRetry prompt ;; ret (Some t))
                              (fun llmErr => ret None)
                 | None => ret None
                 end ;;
       let answer :=
         match answer with
         | Some (c :: t) => c :: t
         | _ => writeFallbackParagraph scored (asProp question) (asProp townPref)
         end in
       ret (mkResponse 200 (AnswerBody answer (map item scored))))
    (fun e => ret serverError).
End Generator.

(* ====================================================================== *)
(** * Ingestion ([scripts/csv-to-json.mjs]) *)
(* ====================================================================== *)

(** A row as [csv-parse] returns it with [columns: true]: one string per
    header column, a column the file does not have being missing. *)
Record CsvRow : Type := mkRow {
  r_town : jsprop;
  r_category : jsprop;
  r_name : jsprop;
  r_address : jsprop;
  r_phone : jsprop;
  r_hours : jsprop;
  r_area : jsprop;
  r_url : jsprop;
  r_notes : jsprop
}.

Definition COMMA : N := 44.

(** [(v || '').trim()] *)
Definition clean (v : jsprop) : jstring := trim (orElse v []).

(** [(r.area||'').trim().split(',').map(s=>s.trim()).filter(Boolean)] *)
Definition parseArea (v : jsprop) : list jstring :=
  filter nonEmpty (map trim (split_on COMMA (clean v))).

Definition sanitize (r : CsvRow) : ServiceRecord :=
  mkRecord (Some (clean (r_town r)))
           (Some (clean (r_category r)))
           (Some (clean (r_name r)))
           (Some (clean (r_address r)))
           (Some (clean (r_phone r)))
           (Some (clean (r_hours r)))
           (Some (parseArea (r_area r)))
           (Some (clean (r_url r)))
           (Some (clean (r_notes r))).

(** [x => x.town && x.category && x.url] *)
Definition keep (x : ServiceRecord) : bool :=
  truthy (town x) && truthy (category x) && truthy (url x).

Definition items (rows : list CsvRow) : list ServiceRecord :=
  filter keep (map sanitize rows).

(* ====================================================================== *)
(** * Scenario data *)
(* ====================================================================== *)

Definition noProp : jsprop := None.

(** The record of scenario 1. *)
Definition lindenMeals : ServiceRecord :=
  mkRecord (Some (u "Linden")) (Some (u "Meals")) (Some (u "Senior Meals Co"))
           noProp (Some (u "555-1111")) noProp None (Some (u "http://x")) noProp.

(** A second and a third record, for the concrete runs. *)
Definition lindenRides : ServiceRecord :=
  mkRecord (Some (u "Linden")) (Some (u "Transport")) (Some (u "Linden Rides"))
           (Some (u "1 Main St")) noProp (Some (u "9-5")) (Some [u "Linden"; u "Rahway"])
           (Some (u "http://r")) (Some (u "Call ahead.")).

Definition rahwayMeals : ServiceRecord :=
  mkRecord (Some (u "Rahway")) (Some (u "Meals")) (Some (u "Rahway Pantry"))
           noProp noProp noProp None (Some (u "http://p")) noProp.

Definition directory3 : list ServiceRecord := [lindenMeals; lindenRides; rahwayMeals].

(* ====================================================================== *)
(** * Reference definitions, in the words of the specification *)
(* ====================================================================== *)

(** Token overlap: how many question tokens, repetitions included, occur
    in the haystack. *)
Definition overlap (hay : jstring) (tokens : list jstring) : nat :=
  length (filter (fun t => includes hay t) tokens).

(** A list ordered by descending score. *)
Definition descending (l : list ScoredRecord) : Prop :=
  StronglySorted (fun a b => score b <= score a) l.


Section RetrievalSpec.
Variable toLowerCase : jstring -> jstring.

(** The records that pass the town filter with a positive overlap, each
    with its overlap, in directory order. *)
Definition matched (tokens : list jstring) (tp : jstring)
           (data : list ServiceRecord) : list ScoredRecord :=
  map (fun d => mkScored d (overlap (haystack toLowerCase d) tokens))
      (filter (fun d => townOk toLowerCase tp d
                        && (0 <? overlap (haystack toLowerCase d) tokens))
              data).

(** No token of the question occurs in any record that passes the filter. *)
Definition noOverlap (data : list ServiceRecord) (question townPref : jsprop) : Prop :=
  forall d, In d data ->
    townOk toLowerCase (townKey toLowerCase townPref) d = true ->
    forall t, In t (tokenize toLowerCase question) ->
      includes (haystack toLowerCase d) t = false.

(** The first two records that pass the town filter, each with score 1. *)
Definition firstTwoFiltered (data : list ServiceRecord) (townPref : jsprop)
  : list ScoredRecord :=
  map (fun it => mkScored it 1)
      (firstn 2 (filter (townOk toLowerCase (townKey toLowerCase townPref)) data)).
End RetrievalSpec.

(** A string made of white space only. *)
Definition allSpace (w : jstring) : bool := forallb isSpace w.

(** Appending to the last piece of a split. *)
Fixpoint appLast (l : list jstring) (w : jstring) : list jstring :=
  match l with
  | [] => [w]
  | [x] => [x ++ w]
  | x :: r => x :: appLast r w
  end.

(** The area list of the data model: the input string split at commas,
    each entry trimmed, empty entries removed. *)
Definition areaEntries (input : jstring) : list jstring :=
  filter nonEmpty (map trim (split_on COMMA input)).

(* ====================================================================== *)
(** * The retriever and the tokens, stated without the code's functions *)
(* ====================================================================== *)

(** The text of a field, the empty text when the field is missing. *)
Definition fieldText (v : jsprop) : jstring :=
  match v with Some s => s | None => [] end.

(** [t] occurs in [s] as a run of consecutive code units. *)
Definition substring (t s : jstring) : Prop :=
  exists pre post, s = pre ++ t ++ post.

(** A text with no white space in it. *)
Definition visible (w : jstring) : bool := forallb (fun c => negb (isSpace c)) w.

(** What may follow a word: the end of the text, or white space. *)
Definition endsWord (rest : jstring) : Prop :=
  match rest with
  | [] => True
  | c :: _ => isSpace c = true
  end.

(** [Words s ts]: [ts] lists, in order and with repetitions, the maximal
    runs of visible code units of [s], the words that white space
    separates. *)
Inductive Words : jstring -> list jstring -> Prop :=
| Words_none (ws : jstring) :
    allSpace ws = true -> Words ws []
| Words_cons (ws w rest : jstring) (ts : list jstring) :
    allSpace ws = true -> w <> [] -> visible w = true -> endsWord rest ->
    Words rest ts ->
    Words (ws ++ w ++ rest) (w :: ts).


Definition SPACE : N := 32.

(** The non-empty texts of a list, in order, with one space between two
    neighbours. *)
Fixpoint spaced (fields : list jstring) : jstring :=
  match fields with
  | [] => []
  | f :: rest =>
      match f, spaced rest with
      | [], r => r
      | _ :: _, [] => f
      | _ :: _, _ :: _ => f ++ [SPACE] ++ spaced rest
      end
  end.

(** The text of a record that the question is matched against: its town,
    category, name, address and notes. *)
Definition recordText (d : ServiceRecord) : jstring :=
  spaced [fieldText (town d); fieldText (category d); fieldText (name d);
          fieldText (address d); fieldText (notes d)].

(** [Kept P l kept]: [kept] lists the entries of [l] that satisfy [P], in
    the order of [l]. *)
Inductive Kept (A : Type) (P : A -> Prop) : list A -> list A -> Prop :=
| Kept_nil : Kept P [] []
| Kept_keep (x : A) (l kept : list A) :
    P x -> Kept P l kept -> Kept P (x :: l) (x :: kept)
| Kept_drop (x : A) (l kept : list A) :
    ~ P x -> Kept P l kept -> Kept P (x :: l) kept.

Section TownFilterSpec.
Variable toLowerCase : jstring -> jstring.

(** A record passes the town filter when there is no filter text, or when
    its lower-cased town holds the lower-cased filter text. *)
Definition passesTownFilter (townFilter : jsprop) (d : ServiceRecord) : Prop :=
  match townFilter with
  | Some (c :: t) =>
      substring (toLowerCase (c :: t)) (toLowerCase (fieldText (town d)))
  | _ => True
  end.

(** No word of the lower-cased question occurs in the lower-cased text of
    a record that passes the town filter. *)
Definition nothingMatches (data : list ServiceRecord) (question townFilter : jsprop)
  : Prop :=
  forall d, In d data -> passesTownFilter townFilter d ->
    forall ts, Words (toLowerCase (fieldText question)) ts ->
      forall t, In t ts -> ~ substring t (toLowerCase (recordText d)).
End TownFilterSpec.

(** The apology, in its two readings: with the town filter text when there
    is one, and without. *)
Definition apologySentence (townFilter : jsprop) : jstring :=
  match townFilter with
  | Some (c :: t) =>
      u "I couldn" ++ [RSQUO] ++ u "t find a match in " ++ (c :: t)
      ++ u ". Please try a different town or category, or use the links in the sources below."
  | _ =>
      u "I couldn" ++ [RSQUO]
      ++ u "t find a match. Please try a different town or category, or use the links in the sources below."
  end.

(** A sentence that is emitted only when the field is present. *)
Definition whenPresent (v : jsprop) (render : jstring -> jstring) : list jstring :=
  match v with
  | Some (c :: s) => [render (c :: s)]
  | _ => []
  end.

(** The fallback composer of the specification: the apology for an empty
    list, else the sentences of the top-ranked record in their fixed order,
    joined by single spaces. *)
Definition composeFallback (scoredRecords : list ScoredRecord) (townFilter : jsprop)
  : jstring :=
  match scoredRecords with
  | [] => apologySentence townFilter
  | top :: _ =>
      let r := item top in
      join (u " ")
           ([tpl (name r) ++ u " serves " ++ tpl (town r) ++ u "."]
            ++ whenPresent (notes r) (fun n => n)
            ++ whenPresent (hours r) (fun h => u "Hours: " ++ h ++ u ".")
            ++ whenPresent (address r) (fun a => u "Address: " ++ a ++ u ".")
            ++ [u "Phone: "
                ++ match phone r with Some (c :: p) => c :: p | _ => u "N/A" end
                ++ u "."]
            ++ whenPresent (url r) (fun l => u "More info: " ++ l))
  end.

(** Rows for the concrete runs of the ingestion filter. *)
Definition rowComplete : CsvRow :=
  mkRow (Some (u " Linden ")) (Some (u "Meals")) (Some (u "Senior Meals Co"))
        (Some []) (Some (u "555-1111")) noProp (Some (u " Linden , ,Rahway,  "))
        (Some (u "http://x ")) noProp.

Definition rowNoUrl : CsvRow :=
  mkRow (Some (u "Linden")) (Some (u "Meals")) (Some (u "Hidden Kitchen"))
        noProp noProp noProp (Some (u "Linden")) (Some (u "   ")) noProp.

(** One directory line of the prompt, field by field: the category in
    brackets, the name or its placeholder, the phone or N/A, the address
    when present, the hours or N/A, the comma-joined areas, the link when
    present, the notes when present. *)
Definition lineSegments (r : ServiceRecord) : list jstring :=
  [u "- [" ++ tpl (category r) ++ u "] ";
   match name r with Some (c :: n) => c :: n | _ => u "(name not provided)" end;
   u " " ++ [EMDASH] ++ u " Phone: "
     ++ match phone r with Some (c :: p) => c :: p | _ => u "N/A" end ++ u "; "]
  ++ whenPresent (address r) (fun a => u "Address: " ++ a ++ u "; ")
  ++ [u "Hours: "
        ++ match hours r with Some (c :: h) => c :: h | _ => u "N/A" end ++ u "; ";
      u "Area: "
        ++ join (u ", ") (match area r with Some a => a | None => [] end) ++ u "; "]
  ++ whenPresent (url r) (fun l => u "Link: " ++ l ++ u "; ")
  ++ whenPresent (notes r) (fun n => u "Notes: " ++ n).

(** The optional town line of the prompt. *)
Definition townLine (townFilter : jsprop) : jstring :=
  match townFilter with
  | Some (c :: t) => u "Preferred town: " ++ c :: t
  | _ => []
  end.

(** The prompt with its final trim carried out. *)
Definition promptText (question townFilter : jsprop) (scored : list ScoredRecord)
  : jstring :=
  guardrails ++ [LF; LF]
  ++ u "User question: " ++ [DQUOTE; DQUOTE; DQUOTE] ++ tpl question
  ++ [DQUOTE; DQUOTE; DQUOTE; LF]
  ++ townLine townFilter ++ [LF; LF]
  ++ u "Local Directory:" ++ [LF]
  ++ match scored with
     | [] => u "(no matches)"
     | _ => join [LF] (map (fun s => concat (lineSegments (item s))) scored)
     end
  ++ [LF] ++ promptClosing.

(** A string that begins, or ends, with a unit that is not white space. *)
Definition startsVisible (s : jstring) : Prop :=
  exists a r, s = a :: r /\ isSpace a = false.

Definition endsVisible (s : jstring) : Prop :=
  exists r b, s = r ++ [b] /\ isSpace b = false.

(** A record with an empty name and no areas. *)
Definition nameless : ServiceRecord :=
  mkRecord (Some (u "Linden")) (Some (u "Meals")) (Some [])
           noProp (Some (u "555-1111")) (Some (u "9-5")) None
           (Some (u "http://x")) noProp.

(** Generator states and services for the concrete runs. *)
Definition GEMINI_PRO : jstring := u "gemini-pro".

Definition onGeminiPro : GenState := mkGen (Some GEMINI_PRO) GEMINI_PRO [].

Definition onDefault : GenState := mkGen (Some DEFAULT_MODEL) DEFAULT_MODEL [].

Definition noGenerator : GenState := mkGen None DEFAULT_MODEL [].

(** A rejection whose status text is set and says nothing of a missing
    model, while its message does. *)
Definition forbidden404 : JsError :=
  mkError (Some (u "Forbidden")) (Some (u "404 model not found")).

(** A rejection that names a missing model in its status text. *)
Definition notFound404 : JsError :=
  mkError (Some (u "Not Found")) (Some (u "[404 Not Found] models/gemini-pro is not found")).

(** A rejection whose text has no space between the two words. *)
Definition notFoundNoSpace : JsError := mkError None (Some (u "ModelNotFound")).

Definition rateLimited : JsError :=
  mkError (Some (u "Too Many Requests")) (Some (u "quota exceeded")).

(** A service whose first request fails with [e] and whose later requests
    answer [text]. *)
Definition failsFirst (e : JsError) (text : jstring)
  : nat -> jstring -> jstring -> outcome jstring :=
  fun n _ _ => match n with 0 => Throw e | S _ => Return text end.

(** A service that rejects every request with [e]. *)
Definition alwaysFails (e : JsError) : nat -> jstring -> jstring -> outcome jstring :=
  fun _ _ _ => Throw e.

(** The state after one logged request. *)
Definition logged (st : GenState) (model prompt : jstring) : GenState :=
  mkGen (chatModel st) (currentModelName st) (calls st ++ [(model, prompt)]).

(** Whether the first failure sends the generator to the default model. *)
Definition retries (st : GenState) (err : JsError) : bool :=
  isNotFound (errorText err)
  && negb (jstring_eqb (currentModelName st) DEFAULT_MODEL).

(** The question of a request is absent, another falsy value, or a string
    of white space only. *)
Definition absentOrBlank (v : jsval) : Prop :=
  jsTruthy v = false \/ exists s, v = JStr s /\ trim s = [].

(** The value is a string, or is falsy and read as no town filter. *)
Definition stringOrFalsy (v : jsval) : Prop :=
  (exists s, v = JStr s) \/ jsTruthy v = false.

(** The town filter the retriever sees for an accepted request value. *)
Definition townText (v : jsval) : jstring :=
  match v with JStr s => s | _ => [] end.

(** Requests for the concrete runs. *)
Definition askMeals : AskBody := mkBody (JStr (u "meals in Linden")) (JStr (u "Linden")).

Definition askNumber : AskBody := mkBody (JNum 5) JUndefined.

Definition askNumberTown : AskBody := mkBody (JStr (u "meals")) (JNum 5).

Definition askBlank : AskBody := mkBody (JStr (u "   ")) JUndefined.

(* ====================================================================== *)
(** * The rest of the server and of the ingestion script *)
(* ====================================================================== *)

(** [initModel] when the SDK may refuse a model name: [sdk name] is the
    error its constructors throw for [name], if any. [chatModel] and
    [currentModelName] are assigned only once both have returned. *)
Definition initModelVia (sdk : jstring -> option JsError) (name : jstring) : M unit :=
  match sdk name with
  | Some e => throw e
  | None => initModel name
  end.

(** Module start: [currentModelName = process.env.MODEL_NAME ||
    'gemini-2.0-flash'], then [initModel] on it and, if that throws,
    [initModel] on the default with its error swallowed. *)
Definition startup (sdk : jstring -> option JsError) (envModelName : jsprop)
  : outcome unit * GenState :=
  let configured := orElse envModelName DEFAULT_MODEL in
  tryCatch (initModelVia sdk configured)
           (fun e => tryCatch (initModelVia sdk DEFAULT_MODEL) (fun _ => ret tt))
           (mkGen None configured []).

(** Requests handled one after the other, each run to completion on the
    state the previous one left. *)
Fixpoint serveAll (service : nat -> jstring -> jstring -> outcome jstring)
         (toLowerCase : jstring -> jstring) (data : list ServiceRecord)
         (reqs : list AskBody) (st : GenState)
  : list (outcome Response) * GenState :=
  match reqs with
  | [] => ([], st)
  | req :: rest =>
      let (o, st1) := askHandler service toLowerCase data req st in
      let (os, st2) := serveAll service toLowerCase data rest st1 in
      (o :: os, st2)
  end.

(** An entry of [index.json]: [{ item: it, vector: null }]. *)
Record IndexEntry : Type := mkIndexEntry {
  ix_item : ServiceRecord;
  ix_vector : option (list Z)
}.

(** [items.map(it => ({ item: it, vector: null }))] *)
Definition buildIndex (its : list ServiceRecord) : list IndexEntry :=
  map (fun it => mkIndexEntry it None) its.

(** The body of [GET /health]. *)
Record Health : Type := mkHealth {
  h_ok : bool;
  h_data : nat;
  h_index : nat;
  h_model : jstring
}.

Definition health (data : list ServiceRecord) (index : list IndexEntry) (st : GenState)
  : Health :=
  mkHealth true (length data) (length index) (currentModelName st).

(** The client, when there is one, is the client of the current model. *)
Definition clientBound (st : GenState) : Prop :=
  forall m, chatModel st = Some m -> currentModelName st = m.

(** The retries the process can still make: none once the current model is
    the default. *)
Definition retryBudget (st : GenState) : nat :=
  if jstring_eqb (currentModelName st) DEFAULT_MODEL then 0 else 1.

(** An SDK that refuses exactly the model name [bad]. *)
Definition refuses (bad : jstring) : jstring -> option JsError :=
  fun name => if jstring_eqb name bad
              then Some (newError (u "Must provide a model name"))
              else None.

(** An SDK that refuses every model name. *)
Definition refusesAll : jstring -> option JsError :=
  fun _ => Some (newError (u "Must provide a model name")).

(** A string with no comma in it. *)
Definition commaFree (s : jstring) : bool := forallb (fun c => negb (N.eqb c COMMA)) s.

(** A string that [trim] leaves as it is and that is not empty. *)
Definition tidy (s : jstring) : Prop := s <> [] /\ trim s = s.

(** The retrieval, the prompt and the fallback of an accepted request whose
    question is the string [q]. *)
Definition scoredFor (toLowerCase : jstring -> jstring) (data : list ServiceRecord)
           (req : AskBody) (q : jstring) : list ScoredRecord :=
  keywordRetrieve toLowerCase data (Some q) (Some (townText (townPref req))).

Definition promptFor (toLowerCase : jstring -> jstring) (data : list ServiceRecord)
           (req : AskBody) (q : jstring) : jstring :=
  buildPrompt (Some q) (asProp (townPref req)) (scoredFor toLowerCase data req q).

Definition fallbackFor (toLowerCase : jstring -> jstring) (data : list ServiceRecord)
           (req : AskBody) (q : jstring) : jstring :=
  writeFallbackParagraph (scoredFor toLowerCase data req q) (Some q)
                         (asProp (townPref req)).

(** A request that names a town the directory does not have. *)
Definition askElsewhere : AskBody := mkBody (JStr (u "meals")) (JStr (u "Paris")).

(** A service that answers every request with [text]. *)
Definition alwaysAnswers (text : jstring) : nat -> jstring -> jstring -> outcome jstring :=
  fun _ _ _ => Return text.

(* ====================================================================== *)
(** * Facts about the string primitives *)
(* ====================================================================== *)

Lemma startsWith_app (t rest : jstring) : startsWith (t ++ rest) t = true.
Proof.
  induction t as [|c t IH]; simpl.
  - reflexivity.
  - now rewrite N.eqb_refl, IH.
Qed.

Lemma startsWith_split (s t : jstring) :
  startsWith s t = true -> exists rest, s = t ++ rest.
Proof.
  revert s; induction t as [|c t IH]; intros s H.
  - now exists s.
  - destruct s as [|d s]; simpl in H; [discriminate|].
    apply andb_true_iff in H as [Hc Hs].
    apply N.eqb_eq in Hc; subst d.
    destruct (IH _ Hs) as [rest ->].
    now exists rest.
Qed.

Lemma includes_app (pre t post : jstring) : includes (pre ++ t ++ post) t = true.
Proof.
  induction pre as [|c pre IH].
  - simpl app. destruct (t ++ post) eqn:E; simpl; rewrite <- ?E;
      now rewrite startsWith_app.
  - simpl. rewrite IH. apply orb_true_r.
Qed.

Lemma includes_split (s t : jstring) :
  includes s t = true -> exists pre post, s = pre ++ t ++ post.
Proof.
  induction s as [|c s IH]; simpl; intros H.
  - rewrite orb_false_r in H.
    destruct (startsWith_split _ _ H) as [rest ->]. now exists [], rest.
  - apply orb_true_iff in H as [H|H].
    + destruct (startsWith_split _ _ H) as [rest ->]. now exists [], rest.
    + destruct (IH H) as (pre & post & ->). now exists (c :: pre), post.
Qed.

Lemma includes_iff (s t : jstring) :
  includes s t = true <-> exists pre post, s = pre ++ t ++ post.
Proof.
  split; [apply includes_split|].
  intros (pre & post & ->). apply includes_app.
Qed.

(* ====================================================================== *)
(** * Facts about the stable sort *)
(* ====================================================================== *)

Lemma sort_insert_perm (A : Type) (cmp : A -> A -> Z) (x : A) (l : list A) :
  Permutation (sort_insert cmp x l) (x :: l).
Proof.
  induction l as [|y l IH]; simpl.
  - reflexivity.
  - destruct (0 <? cmp x y)%Z.
    + rewrite IH. apply perm_swap.
    + reflexivity.
Qed.

Lemma js_sort_perm (A : Type) (cmp : A -> A -> Z) (l : list A) :
  Permutation (js_sort cmp l) l.
Proof.
  induction l as [|x l IH]; simpl.
  - reflexivity.
  - rewrite sort_insert_perm. now constructor.
Qed.

Lemma byScoreDesc_pos (x y : ScoredRecord) :
  (0 <? byScoreDesc x y)%Z = (score x <? score y).
Proof.
  unfold byScoreDesc.
  destruct (score x <? score y) eqn:E.
  - apply Nat.ltb_lt in E. apply Z.ltb_lt. lia.
  - apply Nat.ltb_ge in E. apply Z.ltb_ge. lia.
Qed.

Lemma sort_insert_descending (x : ScoredRecord) (l : list ScoredRecord) :
  descending l -> descending (sort_insert byScoreDesc x l).
Proof.
  unfold descending.
  induction l as [|y l IH]; simpl; intros H.
  - constructor; constructor.
  - inversion H as [|? ? Hl Hy]; subst.
    rewrite byScoreDesc_pos.
    destruct (score x <? score y) eqn:E.
    + apply Nat.ltb_lt in E.
      constructor; [now apply IH|].
      eapply Permutation_Forall; [symmetry; apply sort_insert_perm|].
      constructor; [lia | assumption].
    + apply Nat.ltb_ge in E.
      constructor; [assumption|].
      constructor; [assumption|].
      eapply Forall_impl; [|exact Hy]. simpl; intros; lia.
Qed.

Lemma js_sort_descending (l : list ScoredRecord) :
  descending (js_sort byScoreDesc l).
Proof.
  induction l as [|x l IH]; simpl.
  - constructor.
  - now apply sort_insert_descending.
Qed.



Lemma In_firstn (A : Type) (n : nat) (l : list A) (x : A) :
  In x (firstn n l) -> In x l.
Proof.
  revert n; induction l as [|y l IH]; intros [|n]; simpl; try tauto.
  intros [H|H]; [now left | right; eauto].
Qed.


(* ====================================================================== *)
(** * The keyword retriever *)
(* ====================================================================== *)





Section RetrievalFacts.
Variable toLowerCase : jstring -> jstring.

Notation "'retrieve'" := (keywordRetrieve toLowerCase).
Notation "'hay'" := (haystack toLowerCase).
Notation "'tokens'" := (tokenize toLowerCase).
Notation "'key'" := (townKey toLowerCase).

Lemma countHits_from (h : jstring) (ts : list jstring) (n : nat) :
  fold_left (fun sc t => if includes h t then S sc else sc) ts n
  = n + overlap h ts.
Proof.
  unfold overlap. revert n.
  induction ts as [|t ts IH]; intros n; simpl; [lia|].
  rewrite IH. destruct (includes h t); simpl; lia.
Qed.

Lemma countHits_overlap (h : jstring) (ts : list jstring) :
  countHits h ts = overlap h ts.
Proof. unfold countHits. now rewrite countHits_from. Qed.

Lemma scoreLoop_matched (ts : list jstring) (tp : jstring)
      (data : list ServiceRecord) (acc : list ScoredRecord) :
  fold_left (scoreStep toLowerCase ts tp) data acc
  = acc ++ matched toLowerCase ts tp data.
Proof.
  unfold matched. revert acc.
  induction data as [|d data IH]; intros acc; simpl.
  - now rewrite app_nil_r.
  - rewrite IH. unfold scoreStep. rewrite countHits_overlap.
    destruct (townOk toLowerCase tp d); simpl; [|reflexivity].
    destruct (0 <? overlap (hay d) ts); simpl; [|reflexivity].
    now rewrite <- app_assoc.
Qed.

(** The loop, the emptiness test and the two exits, in closed form. *)
Lemma keywordRetrieve_eq (data : list ServiceRecord) (q tp : jsprop) :
  retrieve data q tp
  = match matched toLowerCase (tokens q) (key tp) data with
    | [] => firstTwoFiltered toLowerCase data tp
    | m => firstn 2 (js_sort byScoreDesc m)
    end.
Proof.
  unfold keywordRetrieve. rewrite scoreLoop_matched. simpl app.
  destruct (matched toLowerCase (tokens q) (key tp) data); reflexivity.
Qed.

Lemma matched_positive (ts : list jstring) (tp : jstring) (data : list ServiceRecord) :
  Forall (fun s => 1 <= score s
                   /\ score s = overlap (hay (item s)) ts
                   /\ townOk toLowerCase tp (item s) = true
                   /\ In (item s) data)
         (matched toLowerCase ts tp data).
Proof.
  unfold matched. rewrite Forall_forall. intros s Hs.
  apply in_map_iff in Hs as (d & <- & Hd).
  apply filter_In in Hd as (Hin & Hd).
  apply andb_true_iff in Hd as (Hok & Hpos).
  apply Nat.ltb_lt in Hpos. simpl. repeat split; try assumption; lia.
Qed.

Lemma noOverlap_matched (data : list ServiceRecord) (q tp : jsprop) :
  noOverlap toLowerCase data q tp ->
  matched toLowerCase (tokens q) (key tp) data = [].
Proof.
  intros H. unfold matched.
  replace (filter _ data) with (@nil ServiceRecord); [reflexivity|].
  symmetry. induction data as [|d data IH]; simpl; [reflexivity|].
  rewrite IH by (intros x Hx; apply H; now right).
  destruct (townOk toLowerCase (key tp) d) eqn:E; simpl; [|reflexivity].
  replace (overlap (hay d) (tokens q)) with 0; [reflexivity|].
  unfold overlap.
  assert (Hd : forall t, In t (tokens q) -> includes (hay d) t = false)
    by (apply H; [now left | exact E]).
  clear -Hd. induction (tokens q) as [|t ts IHts]; simpl; [reflexivity|].
  rewrite (Hd t) by now left. apply IHts. intros; apply Hd; now right.
Qed.

Lemma matched_nil_noOverlap (data : list ServiceRecord) (q tp : jsprop) :
  matched toLowerCase (tokens q) (key tp) data = [] ->
  noOverlap toLowerCase data q tp.
Proof.
  unfold matched. intros H d Hd Hok t Ht.
  apply map_eq_nil in H.
  assert (Hf : (townOk toLowerCase (key tp) d
                && (0 <? overlap (hay d) (tokens q))) = false).
  { destruct (_ && _) eqn:E; [|reflexivity].
    assert (Hin : In d []) by (rewrite <- H; apply filter_In; auto).
    destruct Hin. }
  rewrite Hok in Hf. simpl in Hf. apply Nat.ltb_ge in Hf.
  destruct (includes (hay d) t) eqn:E; [|reflexivity].
  assert (Hin : In t (filter (fun t => includes (hay d) t) (tokens q)))
    by (apply filter_In; auto).
  unfold overlap in Hf.
  destruct (filter _ (tokens q)); [destruct Hin | simpl in Hf; lia].
Qed.

Lemma split_ws_pieces (s : jstring) :
  Forall (fun piece => forallb (fun c => negb (isSpace c)) piece = true) (split_ws s).
Proof.
  induction s as [|c s IH]; simpl.
  - repeat constructor.
  - destruct (isSpace c) eqn:E.
    + destruct s as [|d s']; [repeat constructor|].
      destruct (isSpace d); [exact IH | constructor; [reflexivity | exact IH]].
    + destruct (split_ws s) as [|h t]; [repeat constructor; simpl; now rewrite E|].
      inversion IH as [|? ? Hh Ht]; subst.
      constructor; [simpl; now rewrite E, Hh | exact Ht].
Qed.

Lemma tokens_visible (q : jsprop) :
  Forall (fun t => t <> [] /\ forallb (fun c => negb (isSpace c)) t = true) (tokens q).
Proof.
  unfold tokenize. rewrite Forall_forall. intros t Ht.
  apply filter_In in Ht as [Hin Hne].
  split; [destruct t; [discriminate | congruence]|].
  pose proof (split_ws_pieces (toLowerCase (orElse q []))) as H.
  rewrite Forall_forall in H. now apply H.
Qed.

Lemma retrieve_in_cases (data : list ServiceRecord) (q tp : jsprop) (s : ScoredRecord) :
  In s (retrieve data q tp) ->
  (In s (matched toLowerCase (tokens q) (key tp) data))
  \/ (noOverlap toLowerCase data q tp /\ In s (firstTwoFiltered toLowerCase data tp)).
Proof.
  rewrite keywordRetrieve_eq.
  destruct (matched toLowerCase (tokens q) (key tp) data) as [|m ms] eqn:E.
  - intros H. right. split; [|exact H]. now apply matched_nil_noOverlap.
  - intros H. left. apply In_firstn in H.
    eapply Permutation_in; [apply js_sort_perm | exact H].
Qed.


(** C9: every scored record returned by [keywordRetrieve] has score at
    least 1: a matched record has a positive overlap and a fallback record
    is given score 1. *)
Theorem retrieve_scores_positive (data : list ServiceRecord) (q tp : jsprop) :
  Forall (fun s => 1 <= score s) (retrieve data q tp).
Proof.
  rewrite Forall_forall. intros s Hs.
  destruct (retrieve_in_cases _ _ _ _ Hs) as [Hm | [_ Hf]].
  - pose proof (matched_positive (tokens q) (key tp) data) as Hall.
    rewrite Forall_forall in Hall. now apply Hall.
  - unfold firstTwoFiltered in Hf. apply in_map_iff in Hf as (d & <- & _).
    simpl. lia.
Qed.

Lemma retrieve_score_cases (data : list ServiceRecord) (q tp : jsprop) (s : ScoredRecord) :
  In s (retrieve data q tp) ->
  (score s = overlap (hay (item s)) (tokens q) /\ 1 <= score s)
  \/ (noOverlap toLowerCase data q tp /\ score s = 1).
Proof.
  intros Hs.
  destruct (retrieve_in_cases _ _ _ _ Hs) as [Hm | [Hno Hf]].
  - left. pose proof (matched_positive (tokens q) (key tp) data) as Hall.
    rewrite Forall_forall in Hall. destruct (Hall _ Hm) as (H1 & H2 & _). auto.
  - right. split; [assumption|].
    unfold firstTwoFiltered in Hf. now apply in_map_iff in Hf as (d & <- & _).
Qed.

Hypothesis toLowerCase_nil : toLowerCase [] = [].

Lemma tokens_of_empty (q : jsprop) : truthy q = false -> tokens q = [].
Proof.
  intros H. unfold tokenize.
  replace (orElse q []) with (@nil N).
  - now rewrite toLowerCase_nil.
  - destruct q as [[|c s]|]; simpl in *; congruence.
Qed.

Lemma no_filter_keeps_all (data : list ServiceRecord) (tp : jsprop) :
  truthy tp = false -> filter (townOk toLowerCase (key tp)) data = data.
Proof.
  intros H. unfold townKey.
  replace (orElse tp []) with (@nil N)
    by (destruct tp as [[|c s]|]; simpl in *; congruence).
  rewrite toLowerCase_nil.
  induction data as [|d data IH]; simpl; [reflexivity|]. now rewrite IH.
Qed.

End RetrievalFacts.


Example retrieve_ranks_by_score :
  keywordRetrieve asciiToLowerCase directory3 (Some (u "Rides  in rahway")) None
  = [mkScored lindenRides 2; mkScored lindenMeals 1].
Proof. reflexivity. Qed.

Example retrieve_keeps_directory_order_on_ties :
  keywordRetrieve asciiToLowerCase directory3 (Some (u "meals")) None
  = [mkScored lindenMeals 1; mkScored rahwayMeals 1].
Proof. reflexivity. Qed.

(* ====================================================================== *)
(** * Facts about trimming, splitting and joining *)
(* ====================================================================== *)

Lemma trimStart_allSpace_app (w z : jstring) :
  allSpace w = true -> trimStart (w ++ z) = trimStart z.
Proof.
  induction w as [|c w IH]; simpl; [reflexivity|].
  intros H. apply andb_true_iff in H as [Hc Hw]. now rewrite Hc, IH.
Qed.

Lemma trimStart_decomp (s : jstring) :
  exists w, s = w ++ trimStart s /\ allSpace w = true.
Proof.
  induction s as [|c s (w & Hs & Hw)]; simpl.
  - now exists [].
  - destruct (isSpace c) eqn:E.
    + exists (c :: w). simpl. rewrite E, Hw. split; [now f_equal | reflexivity].
    + now exists [].
Qed.

Lemma trimStart_head (s : jstring) (c : N) (r : jstring) :
  trimStart s = c :: r -> isSpace c = false.
Proof.
  induction s as [|d s IH]; simpl; [discriminate|].
  destruct (isSpace d) eqn:E; [exact IH|].
  intros H. injection H as <- _. exact E.
Qed.

Lemma trimStart_nonspace (c : N) (s : jstring) :
  isSpace c = false -> trimStart (c :: s) = c :: s.
Proof. intros H. simpl. now rewrite H. Qed.

Lemma allSpace_rev (w : jstring) : allSpace w = true -> allSpace (rev w) = true.
Proof.
  unfold allSpace. rewrite !forallb_forall. intros H x Hx.
  apply H. now apply in_rev.
Qed.

Lemma trimEnd_app_allSpace (y w : jstring) :
  allSpace w = true -> trimEnd (y ++ w) = trimEnd y.
Proof.
  intros H. unfold trimEnd. rewrite rev_app_distr.
  now rewrite trimStart_allSpace_app by now apply allSpace_rev.
Qed.

Lemma trimEnd_decomp (s : jstring) :
  exists w, s = trimEnd s ++ w /\ allSpace w = true.
Proof.
  destruct (trimStart_decomp (rev s)) as (w & Hs & Hw).
  exists (rev w). split; [|now apply allSpace_rev].
  unfold trimEnd. rewrite <- rev_app_distr, <- Hs. now rewrite rev_involutive.
Qed.

Lemma trimEnd_snoc_nonspace (s : jstring) (c : N) :
  isSpace c = false -> trimEnd (s ++ [c]) = s ++ [c].
Proof.
  intros H. unfold trimEnd. rewrite rev_app_distr.
  change (rev [c] ++ rev s) with (c :: rev s).
  rewrite trimStart_nonspace by assumption.
  change (c :: rev s) with ([c] ++ rev s).
  now rewrite rev_app_distr, rev_involutive.
Qed.

Lemma trim_allSpace_app (w x : jstring) :
  allSpace w = true -> trim (w ++ x) = trim x.
Proof. intros H. unfold trim. now rewrite trimStart_allSpace_app. Qed.

Lemma trim_app_allSpace (x w : jstring) :
  allSpace w = true -> trim (x ++ w) = trim x.
Proof.
  intros H. unfold trim.
  destruct (trimStart_decomp x) as (w0 & Hx & Hw0).
  rewrite Hx at 1. rewrite <- app_assoc.
  rewrite trimStart_allSpace_app by assumption.
  destruct (trimStart x) as [|c r] eqn:E.
  - simpl app. rewrite <- (app_nil_r w), trimStart_allSpace_app by assumption.
    reflexivity.
  - rewrite <- app_comm_cons.
    rewrite trimStart_nonspace by (eapply trimStart_head; eassumption).
    rewrite app_comm_cons. now apply trimEnd_app_allSpace.
Qed.

Lemma split_on_nonempty (sep : N) (s : jstring) :
  exists h t, split_on sep s = h :: t.
Proof.
  induction s as [|c s (h & t & IH)]; simpl; [now exists [], []|].
  destruct (N.eqb c sep); [now eexists _, _|].
  rewrite IH. now eexists _, _.
Qed.

Lemma allSpace_no_comma (w : jstring) (c : N) :
  allSpace w = true -> In c w -> N.eqb c COMMA = false.
Proof.
  unfold allSpace. rewrite forallb_forall. intros H Hc.
  destruct (N.eqb c COMMA) eqn:E; [|reflexivity].
  apply N.eqb_eq in E. subst c. apply H in Hc. discriminate.
Qed.

Lemma split_on_allSpace_app (w s : jstring) :
  allSpace w = true ->
  split_on COMMA (w ++ s)
  = match split_on COMMA s with
    | h :: t => (w ++ h) :: t
    | [] => [w]
    end.
Proof.
  intros H. induction w as [|c w IH]; simpl.
  - destruct (split_on_nonempty COMMA s) as (h & t & ->). reflexivity.
  - rewrite (allSpace_no_comma (c :: w) c H) by now left.
    simpl in H. apply andb_true_iff in H as [_ Hw].
    rewrite (IH Hw).
    destruct (split_on_nonempty COMMA s) as (h & t & ->). reflexivity.
Qed.

Lemma split_on_app_allSpace (s w : jstring) :
  allSpace w = true ->
  split_on COMMA (s ++ w) = appLast (split_on COMMA s) w.
Proof.
  intros H. induction s as [|c s IH]; simpl.
  - rewrite <- (app_nil_r w) at 1. rewrite split_on_allSpace_app by assumption.
    simpl. now rewrite app_nil_r.
  - destruct (N.eqb c COMMA).
    + rewrite IH. destruct (split_on_nonempty COMMA s) as (h & t & ->). reflexivity.
    + rewrite IH. destruct (split_on_nonempty COMMA s) as (h & [|h2 t] & ->); reflexivity.
Qed.

Lemma trimmed_appLast (l : list jstring) (w : jstring) :
  l <> [] -> allSpace w = true ->
  map trim (appLast l w) = map trim l.
Proof.
  intros Hl Hw. induction l as [|x [|y r] IH]; [congruence| |].
  - simpl. now rewrite trim_app_allSpace.
  - change (appLast (x :: y :: r) w) with (x :: appLast (y :: r) w).
    rewrite !(map_cons trim x). f_equal. apply IH. discriminate.
Qed.

(** Trimming the whole string before splitting it at commas changes no
    trimmed piece. *)
Lemma split_trimmed (s : jstring) :
  map trim (split_on COMMA (trim s)) = map trim (split_on COMMA s).
Proof.
  destruct (trimStart_decomp s) as (w1 & Hs & Hw1).
  destruct (trimEnd_decomp (trimStart s)) as (w2 & Ht & Hw2).
  fold (trim s) in Ht.
  rewrite Hs at 2. rewrite Ht.
  rewrite split_on_allSpace_app by assumption.
  rewrite split_on_app_allSpace by assumption.
  destruct (split_on_nonempty COMMA (trim s)) as (h & t & E).
  assert (Ha : map trim (appLast (split_on COMMA (trim s)) w2)
               = map trim (split_on COMMA (trim s))).
  { apply trimmed_appLast; [rewrite E; discriminate | assumption]. }
  destruct (appLast (split_on COMMA (trim s)) w2) as [|h' t'] eqn:E'.
  - rewrite E in Ha. discriminate.
  - simpl. rewrite trim_allSpace_app by assumption. exact (eq_sym Ha).
Qed.

Lemma includes_join (sep x : jstring) (parts : list jstring) :
  In x parts -> includes (join sep parts) x = true.
Proof.
  induction parts as [|p [|p2 rest] IH]; intros H.
  - destruct H.
  - destruct H as [->|[]]. simpl join.
    apply includes_iff. exists [], []. now rewrite app_nil_r.
  - change (join sep (p :: p2 :: rest)) with (p ++ sep ++ join sep (p2 :: rest)).
    destruct H as [->|H].
    + apply includes_iff. exists [], (sep ++ join sep (p2 :: rest)). reflexivity.
    + apply IH in H. apply includes_iff in H as (pre & post & ->).
      apply includes_iff. exists (p ++ sep ++ pre), post.
      now rewrite <- !app_assoc.
Qed.

(* ====================================================================== *)
(** * The ingestion filter *)
(* ====================================================================== *)

Lemma parseArea_areaEntries (v : jsprop) :
  parseArea v = areaEntries (orElse v []).
Proof. unfold parseArea, areaEntries, clean. now rewrite split_trimmed. Qed.

Lemma truthy_Some (s : jstring) : truthy (Some s) = true <-> s <> [].
Proof. destruct s; simpl; split; congruence. Qed.

Lemma keep_sanitize (r : CsvRow) :
  keep (sanitize r) = true
  <-> clean (r_town r) <> [] /\ clean (r_category r) <> [] /\ clean (r_url r) <> [].
Proof.
  unfold keep, sanitize. cbn [town category url].
  rewrite !andb_true_iff, !truthy_Some. tauto.
Qed.

(** C8: a record survives the ingestion filter exactly when it is the
    sanitised form of a row whose trimmed town, category and url are all
    non-empty, so every surviving record has a non-empty town, category and
    url and a row lacking one of them is dropped; and the area of a
    sanitised row is its area string split at commas, each entry trimmed,
    empty entries removed. *)
Theorem ingestion_keeps_complete_records (rows : list CsvRow) :
  (forall x, In x (items rows) <->
     exists r, In r rows /\ x = sanitize r
               /\ clean (r_town r) <> [] /\ clean (r_category r) <> []
               /\ clean (r_url r) <> [])
  /\ (forall x, In x (items rows) ->
        exists t c l, town x = Some t /\ t <> []
                      /\ category x = Some c /\ c <> []
                      /\ url x = Some l /\ l <> [])
  /\ (forall r, area (sanitize r) = Some (areaEntries (orElse (r_area r) []))).
Proof.
  assert (Hiff : forall x, In x (items rows) <->
     exists r, In r rows /\ x = sanitize r
               /\ clean (r_town r) <> [] /\ clean (r_category r) <> []
               /\ clean (r_url r) <> []).
  { intros x. unfold items. rewrite filter_In, in_map_iff. split.
    - intros ((r & <- & Hr) & Hk). exists r. apply keep_sanitize in Hk. tauto.
    - intros (r & Hr & -> & Hk). split; [now exists r | now apply keep_sanitize]. }
  split; [exact Hiff|]. split.
  - intros x Hx. apply Hiff in Hx as (r & _ & -> & Ht & Hc & Hu).
    exists (clean (r_town r)), (clean (r_category r)), (clean (r_url r)).
    cbn [sanitize town category url]. tauto.
  - intros r. cbn [sanitize area]. now rewrite parseArea_areaEntries.
Qed.

Lemma ingestion_keeps_complete_records_witness :
  (exists t c l, town (sanitize rowComplete) = Some t /\ t <> []
                 /\ category (sanitize rowComplete) = Some c /\ c <> []
                 /\ url (sanitize rowComplete) = Some l /\ l <> [])
  /\ items [rowNoUrl; rowComplete] = [sanitize rowComplete]
  /\ area (sanitize rowComplete) = Some [u "Linden"; u "Rahway"].
Proof.
  destruct (ingestion_keeps_complete_records [rowNoUrl; rowComplete]) as (_ & H & Ha).
  split; [|split].
  - apply H. vm_compute. left. reflexivity.
  - reflexivity.
  - rewrite Ha. reflexivity.
Defined.

(* ====================================================================== *)
(** * The fallback paragraph *)
(* ====================================================================== *)

Lemma pushIf_whenPresent (v : jsprop) (parts : list jstring) (render : jstring -> jstring) :
  pushIf (truthy v) parts (render (tpl v)) = parts ++ whenPresent v render.
Proof.
  destruct v as [[|c s]|]; simpl; unfold pushIf, push; simpl;
    now rewrite ?app_nil_r.
Qed.

Lemma apology_apologySentence (tp : jsprop) : apology tp = apologySentence tp.
Proof.
  unfold apology, apologySentence.
  destruct tp as [[|c t]|]; cbn [truthy nonEmpty tpl]; rewrite <- ?app_assoc;
    reflexivity.
Qed.

Lemma writeFallbackParagraph_composeFallback
      (scored : list ScoredRecord) (q tp : jsprop) :
  writeFallbackParagraph scored q tp = composeFallback scored tp.
Proof.
  destruct scored as [|s rest]; [apply apology_apologySentence|].
  unfold writeFallbackParagraph, composeFallback.
  cbv zeta.
  rewrite (pushIf_whenPresent (url (item s)) _ (fun l => u "More info: " ++ l)).
  unfold push at 1.
  rewrite (pushIf_whenPresent (address (item s)) _
             (fun a => u "Address: " ++ a ++ u ".")).
  rewrite (pushIf_whenPresent (hours (item s)) _
             (fun h => u "Hours: " ++ h ++ u ".")).
  rewrite (pushIf_whenPresent (notes (item s)) _ (fun n => n)).
  unfold push. f_equal. rewrite <- !app_assoc. reflexivity.
Qed.

(** C6: [writeFallbackParagraph] is a function of the top-ranked record and
    of the town filter alone. On an empty list it returns the apology:
    "I couldn't find a match" (with a typographic apostrophe), then " in "
    and the town filter text when one is given, then ". Please try a
    different town or category, or use the links in the sources below.";
    so it contains the town filter text when one is given. On a non-empty
    list it is the fixed sequence of sentences of the first record, joined
    by single spaces: name and town, then notes, hours and address when
    present, then the phone clause, which reads N/A when the phone is
    empty, then the link when present. *)
Theorem fallback_paragraph_fixed_order :
  (forall scored q tp, writeFallbackParagraph scored q tp = composeFallback scored tp)
  /\ (forall s rest rest' q q' tp tp',
        writeFallbackParagraph (s :: rest) q tp
        = writeFallbackParagraph (s :: rest') q' tp')
  /\ (forall q t, t <> [] ->
        includes (writeFallbackParagraph [] q (Some t)) t = true)
  /\ (forall s rest q tp,
        includes (writeFallbackParagraph (s :: rest) q tp)
                 (u "Phone: " ++ orElse (phone (item s)) (u "N/A") ++ u ".") = true)
  /\ (forall s rest q tp, truthy (phone (item s)) = false ->
        includes (writeFallbackParagraph (s :: rest) q tp) (u "Phone: N/A.") = true)
  /\ (forall q tp, truthy tp = false ->
        writeFallbackParagraph [] q tp
        = u "I couldn" ++ [RSQUO]
          ++ u "t find a match. Please try a different town or category, or use the links in the sources below.")
  /\ (forall q t, t <> [] ->
        writeFallbackParagraph [] q (Some t)
        = u "I couldn" ++ [RSQUO] ++ u "t find a match in " ++ t
          ++ u ". Please try a different town or category, or use the links in the sources below.").
Proof.
  assert (Hphone : forall s rest q tp,
        includes (writeFallbackParagraph (s :: rest) q tp)
                 (u "Phone: " ++ orElse (phone (item s)) (u "N/A") ++ u ".") = true).
  { intros s rest q tp. rewrite writeFallbackParagraph_composeFallback.
    unfold composeFallback. apply includes_join.
    apply in_or_app; right. apply in_or_app; right. apply in_or_app; right.
    apply in_or_app; right. apply in_or_app; left. left.
    destruct (phone (item s)) as [[|c p]|]; reflexivity. }
  split; [apply writeFallbackParagraph_composeFallback|].
  split; [intros; now rewrite !writeFallbackParagraph_composeFallback|].
  split; [|split; [exact Hphone|split; [|split]]].
  - intros q t Ht. unfold writeFallbackParagraph, apology.
    destruct t as [|c t]; [congruence|]. cbn [truthy nonEmpty tpl].
    apply includes_iff.
    exists (u "I couldn" ++ [RSQUO] ++ u "t find a match" ++ u " in "),
      (u ". Please try a different town or category, or use the links in the sources below.").
    now rewrite <- !app_assoc.
  - intros s rest q tp Hp. specialize (Hphone s rest q tp).
    replace (orElse (phone (item s)) (u "N/A")) with (u "N/A") in Hphone;
      [exact Hphone|].
    destruct (phone (item s)) as [[|c p]|]; simpl in *; congruence.
  - intros q tp Htp. rewrite writeFallbackParagraph_composeFallback.
    destruct tp as [[|c t]|]; simpl in Htp; try discriminate; reflexivity.
  - intros q t Ht. rewrite writeFallbackParagraph_composeFallback.
    destruct t as [|c t]; [congruence | reflexivity].
Qed.

Lemma fallback_paragraph_fixed_order_witness :
  includes (writeFallbackParagraph [] (Some (u "meals")) (Some (u "Linden"))) (u "Linden") = true
  /\ includes (writeFallbackParagraph [mkScored rahwayMeals 1] None None) (u "Phone: N/A.") = true
  /\ writeFallbackParagraph [] (Some (u "meals")) (Some [])
     = u "I couldn" ++ [RSQUO]
       ++ u "t find a match. Please try a different town or category, or use the links in the sources below."
  /\ writeFallbackParagraph [] (Some (u "meals")) (Some (u "Linden"))
     = u "I couldn" ++ [RSQUO]
       ++ u "t find a match in Linden. Please try a different town or category, or use the links in the sources below.".
Proof.
  destruct fallback_paragraph_fixed_order as (_ & _ & Ht & _ & Hp & Hn & Hin).
  split; [|split; [|split]].
  - apply Ht. discriminate.
  - apply Hp. reflexivity.
  - apply Hn. reflexivity.
  - etransitivity; [apply (Hin (Some (u "meals")) (u "Linden")); discriminate|].
    reflexivity.
Defined.

Example fallback_paragraph_full :
  writeFallbackParagraph [mkScored lindenRides 2; mkScored lindenMeals 1] None None
  = u "Linden Rides serves Linden. Call ahead. Hours: 9-5. Address: 1 Main St. Phone: N/A. More info: http://r".
Proof. reflexivity. Qed.

Example fallback_paragraph_sparse :
  writeFallbackParagraph [mkScored lindenMeals 3] None None
  = u "Senior Meals Co serves Linden. Phone: 555-1111. More info: http://x".
Proof. reflexivity. Qed.

(* ====================================================================== *)
(** * The prompt *)
(* ====================================================================== *)

Lemma endsVisible_app (x y : jstring) : endsVisible y -> endsVisible (x ++ y).
Proof.
  intros (r & b & -> & Hb). exists (x ++ r), b. now rewrite app_assoc.
Qed.

Lemma startsVisible_app (x y : jstring) : startsVisible x -> startsVisible (x ++ y).
Proof.
  intros (a & r & -> & Ha). now exists a, (r ++ y).
Qed.

Lemma trim_visible (s : jstring) : startsVisible s -> endsVisible s -> trim s = s.
Proof.
  intros (a & r & Hs & Ha) (r' & b & Hs' & Hb). unfold trim.
  rewrite Hs at 1. rewrite trimStart_nonspace by assumption.
  rewrite <- Hs, Hs'. now apply trimEnd_snoc_nonspace.
Qed.

Lemma trim_between_line_feeds (s : jstring) :
  startsVisible s -> endsVisible s -> trim ([LF] ++ s ++ [LF]) = s.
Proof.
  intros Hs He.
  rewrite trim_allSpace_app, trim_app_allSpace by reflexivity.
  now apply trim_visible.
Qed.

Lemma guardrails_startsVisible : startsVisible guardrails.
Proof.
  exists (hd 0%N guardrails), (tl guardrails).
  split; vm_compute; reflexivity.
Qed.

Lemma promptClosing_endsVisible : endsVisible promptClosing.
Proof.
  exists (removelast promptClosing), (last promptClosing 0%N).
  split; vm_compute; reflexivity.
Qed.

Lemma orElse_match (v : jsprop) (d : jstring) :
  orElse v d = match v with Some (c :: s) => c :: s | _ => d end.
Proof. reflexivity. Qed.

Lemma contextLine_segments (s : ScoredRecord) :
  contextLine s = concat (lineSegments (item s)).
Proof.
  unfold contextLine, lineSegments. cbv zeta. rewrite !orElse_match.
  destruct (address (item s)) as [[|ca a]|], (url (item s)) as [[|cl l]|],
           (notes (item s)) as [[|cn n]|];
    cbn [truthy nonEmpty whenPresent tpl];
    rewrite !concat_app; cbn [concat]; rewrite ?app_nil_r;
    rewrite <- ?app_assoc; reflexivity.
Qed.

Lemma join_nonempty (sep x : jstring) (rest : list jstring) :
  x <> [] -> join sep (x :: rest) <> [].
Proof.
  destruct x as [|c x]; [congruence|]. intros _.
  destruct rest; simpl; discriminate.
Qed.

Lemma directorySection_cases (scored : list ScoredRecord) :
  directorySection scored
  = match scored with
    | [] => u "(no matches)"
    | _ => join [LF] (map (fun s => concat (lineSegments (item s))) scored)
    end.
Proof.
  unfold directorySection, contextLines.
  rewrite (map_ext _ _ contextLine_segments).
  destruct scored as [|s rest]; [reflexivity|].
  cbn [map].
  assert (H : join [LF] (concat (lineSegments (item s))
                          :: map (fun s0 => concat (lineSegments (item s0))) rest) <> []).
  { apply join_nonempty. unfold lineSegments. cbn [app concat]. discriminate. }
  rewrite orElse_match.
  destruct (join [LF] _); [congruence | reflexivity].
Qed.

Lemma townLine_eq (tp : jsprop) :
  (if truthy tp then u "Preferred town: " ++ tpl tp else []) = townLine tp.
Proof. destruct tp as [[|c s]|]; reflexivity. Qed.

Lemma buildPrompt_promptText (q tp : jsprop) (scored : list ScoredRecord) :
  buildPrompt q tp scored = promptText q tp scored.
Proof.
  unfold buildPrompt. rewrite townLine_eq, directorySection_cases.
  transitivity (trim ([LF] ++ promptText q tp scored ++ [LF])).
  - f_equal. unfold promptText. rewrite <- !app_assoc. reflexivity.
  - apply trim_between_line_feeds.
    + apply startsVisible_app, guardrails_startsVisible.
    + unfold promptText. repeat apply endsVisible_app.
      apply promptClosing_endsVisible.
Qed.

(** C7, as the code has it: [buildPrompt] renders one line per scored
    record, the lines joined by line feeds. A line holds the category in
    brackets, the name or the placeholder "(name not provided)", the phone
    or N/A, the address only when it is non-empty, the hours or N/A, the
    area label with the comma-joined areas (the label stays when there are
    none), the link only when the url is non-empty and the notes only when
    they are non-empty. With no scored record the directory section is the
    literal "(no matches)". *)
Theorem prompt_directory_lines (q tp : jsprop) (scored : list ScoredRecord) :
  buildPrompt q tp scored = promptText q tp scored
  /\ contextLines scored
     = join [LF] (map (fun s => concat (lineSegments (item s))) scored)
  /\ length (map contextLine scored) = length scored
  /\ directorySection [] = u "(no matches)"
  /\ (forall s rest, directorySection (s :: rest) = contextLines (s :: rest)).
Proof.
  split; [apply buildPrompt_promptText|].
  split; [unfold contextLines; now rewrite (map_ext _ _ contextLine_segments)|].
  split; [apply length_map|].
  split; [reflexivity|].
  intros s rest. rewrite directorySection_cases. unfold contextLines.
  now rewrite (map_ext _ _ contextLine_segments).
Qed.

(** The default of the name field is not N/A: the line of a record with an
    empty name shows "(name not provided)", keeps the area label with no
    area in it, and N/A occurs nowhere in the prompt. *)
Lemma prompt_name_default_counterexample :
  contextLine (mkScored nameless 1)
  = u "- [Meals] (name not provided) " ++ [EMDASH]
    ++ u " Phone: 555-1111; Hours: 9-5; Area: ; Link: http://x; "
  /\ includes (buildPrompt (Some (u "meals")) None [mkScored nameless 1]) (u "N/A")
     = false.
Proof. split; vm_compute; reflexivity. Qed.

Example prompt_line_full :
  contextLine (mkScored lindenRides 2)
  = u "- [Transport] Linden Rides " ++ [EMDASH]
    ++ u " Phone: N/A; Address: 1 Main St; Hours: 9-5; Area: Linden, Rahway; Link: http://r; Notes: Call ahead.".
Proof. vm_compute. reflexivity. Qed.

(* ====================================================================== *)
(** * The generator *)
(* ====================================================================== *)

Example isNotFound_examples :
  isNotFound (u "Not Found") = true
  /\ isNotFound (u "model NOT    found here") = true
  /\ isNotFound (u "ModelNotFound") = true
  /\ isNotFound (u "error 404") = true
  /\ isNotFound (u "not really found") = false
  /\ isNotFound (u "Too Many Requests") = false
  /\ isNotFound [] = false.
Proof. repeat split; reflexivity. Qed.

Lemma jstring_eqb_eq (a b : jstring) : jstring_eqb a b = true <-> a = b.
Proof.
  unfold jstring_eqb. destruct (list_eq_dec N.eq_dec a b); split; congruence.
Qed.

Lemma jstring_eqb_neq (a b : jstring) : jstring_eqb a b = false <-> a <> b.
Proof.
  unfold jstring_eqb. destruct (list_eq_dec N.eq_dec a b); split; congruence.
Qed.

Section GeneratorFacts.
Variable service : nat -> jstring -> jstring -> outcome jstring.

(** [generateWithRetry] in closed form. *)
Lemma generateWithRetry_eq (prompt : jstring) (st : GenState) :
  generateWithRetry service prompt st
  = match chatModel st with
    | None => (Throw (newError (u "Gemini model not initialized")), st)
    | Some model =>
        match service (length (calls st)) model prompt with
        | Return t => (Return t, logged st model prompt)
        | Throw err =>
            if retries st err
            then (service (S (length (calls st))) DEFAULT_MODEL prompt,
                  mkGen (Some DEFAULT_MODEL) DEFAULT_MODEL
                        (calls st ++ [(model, prompt); (DEFAULT_MODEL, prompt)]))
            else (Throw err, logged st model prompt)
        end
    end.
Proof.
  unfold generateWithRetry, bind, getState, tryCatch, generateContent, retries, logged.
  destruct (chatModel st) as [model|] eqn:Ecm; [|reflexivity].
  destruct (service (length (calls st)) model prompt) as [t|err];
    [now rewrite Ecm|].
  cbn [currentModelName].
  destruct (isNotFound (errorText err)
            && negb (jstring_eqb (currentModelName st) DEFAULT_MODEL));
    [|now rewrite Ecm].
  cbn [initModel chatModel calls currentModelName].
  rewrite length_app, <- app_assoc. cbn [length app].
  now replace (length (calls st) + 1) with (S (length (calls st))) by lia.
Qed.
End GeneratorFacts.

(** C4, as the code has it: one call of [generateWithRetry] sends at most
    two requests. The text that decides a retry is the status text of the
    error, or its message when the status text is missing or empty. When
    the first request fails, that text matches "not", any white space,
    "found", or "404", in any letter case, and the configured model is not
    the default, the client is reinitialised to the default model and the
    same prompt is sent once more; the outcome of that second request, a
    text or an error, is the outcome of the call. Any other first failure
    is thrown after the single request, with the configured model
    unchanged; a first success is returned after the single request; with
    no client the call throws without sending anything. *)
Theorem generateWithRetry_retries_once
        (service : nat -> jstring -> jstring -> outcome jstring)
        (prompt : jstring) (st : GenState) :
  length (calls (snd (generateWithRetry service prompt st))) <= length (calls st) + 2
  /\ (chatModel st = None ->
      generateWithRetry service prompt st
      = (Throw (newError (u "Gemini model not initialized")), st))
  /\ (forall model t,
        chatModel st = Some model ->
        service (length (calls st)) model prompt = Return t ->
        generateWithRetry service prompt st = (Return t, logged st model prompt))
  /\ (forall model err,
        chatModel st = Some model ->
        service (length (calls st)) model prompt = Throw err ->
        isNotFound (errorText err) = true ->
        currentModelName st <> DEFAULT_MODEL ->
        generateWithRetry service prompt st
        = (service (S (length (calls st))) DEFAULT_MODEL prompt,
           mkGen (Some DEFAULT_MODEL) DEFAULT_MODEL
                 (calls st ++ [(model, prompt); (DEFAULT_MODEL, prompt)])))
  /\ (forall model err,
        chatModel st = Some model ->
        service (length (calls st)) model prompt = Throw err ->
        isNotFound (errorText err) = false \/ currentModelName st = DEFAULT_MODEL ->
        generateWithRetry service prompt st = (Throw err, logged st model prompt)).
Proof.
  rewrite generateWithRetry_eq.
  split; [|split; [|split; [|split]]].
  - destruct (chatModel st) as [model|]; [|simpl; lia].
    destruct (service (length (calls st)) model prompt) as [t|err].
    + cbn [snd logged calls]. rewrite length_app. simpl. lia.
    + destruct (retries st err); cbn [snd logged calls];
        rewrite length_app; simpl; lia.
  - now intros ->.
  - intros model t -> Hs. now rewrite Hs.
  - intros model err -> Hs Hnf Hm. rewrite Hs. unfold retries. rewrite Hnf.
    apply jstring_eqb_neq in Hm. now rewrite Hm.
  - intros model err -> Hs Hno. rewrite Hs. unfold retries.
    destruct Hno as [Hnf | Hm].
    + now rewrite Hnf.
    + apply jstring_eqb_eq in Hm. rewrite Hm. now rewrite andb_false_r.
Qed.

Lemma generateWithRetry_retries_once_witness :
  generateWithRetry (failsFirst notFound404 (u "Try Senior Meals Co.")) (u "prompt") onGeminiPro
  = (Return (u "Try Senior Meals Co."),
     mkGen (Some DEFAULT_MODEL) DEFAULT_MODEL
           [(GEMINI_PRO, u "prompt"); (DEFAULT_MODEL, u "prompt")])
  /\ generateWithRetry (alwaysFails rateLimited) (u "prompt") onGeminiPro
     = (Throw rateLimited, mkGen (Some GEMINI_PRO) GEMINI_PRO [(GEMINI_PRO, u "prompt")])
  /\ generateWithRetry (alwaysFails notFound404) (u "prompt") onDefault
     = (Throw notFound404,
        mkGen (Some DEFAULT_MODEL) DEFAULT_MODEL [(DEFAULT_MODEL, u "prompt")]).
Proof.
  split; [|split].
  - destruct (generateWithRetry_retries_once
                (failsFirst notFound404 (u "Try Senior Meals Co.")) (u "prompt") onGeminiPro)
      as (_ & _ & _ & H & _).
    apply (H GEMINI_PRO notFound404); try reflexivity.
    vm_compute. discriminate.
  - destruct (generateWithRetry_retries_once
                (alwaysFails rateLimited) (u "prompt") onGeminiPro)
      as (_ & _ & _ & _ & H).
    apply (H GEMINI_PRO rateLimited); try reflexivity. left. reflexivity.
  - destruct (generateWithRetry_retries_once
                (alwaysFails notFound404) (u "prompt") onDefault)
      as (_ & _ & _ & _ & H).
    apply (H DEFAULT_MODEL notFound404); try reflexivity. right. reflexivity.
Defined.

(** The message of the error names a missing model and the configured
    model is not the default, yet no retry is made, because the status text
    is set and is the text that is read; and a text with no space between
    "Not" and "Found" does start the retry. *)
Lemma generateWithRetry_status_text_counterexample :
  isNotFound (orElse (message forbidden404) []) = true
  /\ includes (asciiToLowerCase (orElse (message forbidden404) [])) (u "not found") = true
  /\ currentModelName onGeminiPro <> DEFAULT_MODEL
  /\ generateWithRetry (failsFirst forbidden404 (u "hello")) (u "prompt") onGeminiPro
     = (Throw forbidden404,
        mkGen (Some GEMINI_PRO) GEMINI_PRO [(GEMINI_PRO, u "prompt")])
  /\ includes (asciiToLowerCase (errorText notFoundNoSpace)) (u "not found") = false
  /\ includes (errorText notFoundNoSpace) (u "404") = false
  /\ generateWithRetry (failsFirst notFoundNoSpace (u "hello")) (u "prompt") onGeminiPro
     = (Return (u "hello"),
        mkGen (Some DEFAULT_MODEL) DEFAULT_MODEL
              [(GEMINI_PRO, u "prompt"); (DEFAULT_MODEL, u "prompt")]).
Proof.
  repeat split; try reflexivity. vm_compute. discriminate.
Qed.

(* ====================================================================== *)
(** * The answer endpoint *)
(* ====================================================================== *)

Section EndpointFacts.
Variable service : nat -> jstring -> jstring -> outcome jstring.
Variable toLowerCase : jstring -> jstring.

Notation "'ask'" := (askHandler service toLowerCase).

Lemma nonblank_truthy (q : jstring) : trim q <> [] -> nonEmpty q = true.
Proof. destruct q; [intros H; now contradiction H | reflexivity]. Qed.

Lemma nonblank_nonEmpty (q : jstring) : trim q <> [] -> nonEmpty (trim q) = true.
Proof. destruct (trim q); [congruence | reflexivity]. Qed.

Lemma ask_missing (data : list ServiceRecord) (req : AskBody) (st : GenState) :
  absentOrBlank (question req) -> ask data req st = (Return missingQuestion, st).
Proof.
  unfold askHandler, tryCatch, bind, ret.
  intros [Hf | (s & Hs & Hb)].
  - now rewrite Hf.
  - rewrite Hs. cbn [jsTruthy callTrim]. unfold ret.
    destruct (nonEmpty s); cbn [negb]; [|reflexivity].
    now rewrite Hb.
Qed.

Lemma ask_nonstring (data : list ServiceRecord) (req : AskBody) (st : GenState) :
  jsTruthy (question req) = true -> (forall s, question req <> JStr s) ->
  ask data req st = (Return serverError, st).
Proof.
  unfold askHandler, tryCatch, bind, ret. intros Ht Hs. rewrite Ht. cbn [negb].
  destruct (question req) as [| |b|n|s|]; try discriminate; try reflexivity.
  now contradiction (Hs s).
Qed.

Lemma ask_no_data (req : AskBody) (st : GenState) (q : jstring) :
  question req = JStr q -> trim q <> [] ->
  ask [] req st = (Return noDataLoaded, st).
Proof.
  unfold askHandler, tryCatch, bind, ret. intros Hq Hb. rewrite Hq.
  cbn [jsTruthy callTrim]. unfold ret.
  now rewrite (@nonblank_truthy q Hb), (@nonblank_nonEmpty q Hb).
Qed.

Lemma ask_bad_town (data : list ServiceRecord) (req : AskBody) (st : GenState)
      (q : jstring) :
  question req = JStr q -> trim q <> [] -> data <> [] ->
  jsTruthy (townPref req) = true -> (forall s, townPref req <> JStr s) ->
  ask data req st = (Return serverError, st).
Proof.
  unfold askHandler, tryCatch, bind, ret. intros Hq Hb Hd Ht Hs. rewrite Hq.
  cbn [jsTruthy callTrim]. unfold ret.
  rewrite (@nonblank_truthy q Hb), (@nonblank_nonEmpty q Hb). cbn [negb].
  destruct data as [|d data]; [congruence|]. cbn [length Nat.eqb].
  unfold keywordRetrieveJs, bind, orEmptyString, ret, throw. rewrite Ht.
  destruct (townPref req) as [| |b|n|s|]; try discriminate; try reflexivity.
  now contradiction (Hs s).
Qed.

Lemma orEmptyString_accepts (v : jsval) (st : GenState) :
  stringOrFalsy v -> orEmptyString v st = (Return (townText v), st).
Proof.
  intros [(s & ->) | Hf]; [reflexivity|].
  unfold orEmptyString. rewrite Hf.
  destruct v; reflexivity.
Qed.

(** The handler on a request that passes both checks and whose town value
    the retriever accepts. *)
Lemma ask_answers (data : list ServiceRecord) (req : AskBody) (st : GenState)
      (q : jstring) :
  question req = JStr q -> trim q <> [] -> data <> [] ->
  stringOrFalsy (townPref req) ->
  let scored := keywordRetrieve toLowerCase data (Some q) (Some (townText (townPref req))) in
  let prompt := buildPrompt (Some q) (asProp (townPref req)) scored in
  let fallback := writeFallbackParagraph scored (Some q) (asProp (townPref req)) in
  ask data req st
  = match chatModel st with
    | None => (Return (mkResponse 200 (AnswerBody fallback (map item scored))), st)
    | Some _ =>
        (Return (mkResponse 200
                   (AnswerBody
                      match fst (generateWithRetry service prompt st) with
                      | Return (c :: t) => c :: t
                      | _ => fallback
                      end
                      (map item scored))),
         snd (generateWithRetry service prompt st))
    end.
Proof.
  intros Hq Hb Hd Ht scored prompt fallback.
  unfold askHandler, tryCatch, bind, ret. rewrite Hq.
  cbn [jsTruthy callTrim]. unfold ret.
  rewrite (@nonblank_truthy q Hb), (@nonblank_nonEmpty q Hb). cbn [negb].
  destruct data as [|d data]; [congruence|]. cbn [length Nat.eqb].
  unfold keywordRetrieveJs, bind, ret.
  cbn [orEmptyString]. unfold ret.
  rewrite (@orEmptyString_accepts (townPref req) st Ht).
  unfold getState. cbn [asProp].
  fold scored. fold prompt. fold fallback.
  destruct (chatModel st) as [model|]; [|reflexivity].
  destruct (generateWithRetry service prompt st) as [[[|c t]|e] st'];
    reflexivity.
Qed.
End EndpointFacts.

Lemma stringOrFalsy_cases (v : jsval) :
  stringOrFalsy v \/ (jsTruthy v = true /\ forall s, v <> JStr s).
Proof.
  unfold stringOrFalsy.
  destruct v as [| |b|n|s|]; simpl;
    try (left; right; reflexivity);
    try (left; left; eexists; reflexivity);
    try (right; split; [reflexivity | discriminate]).
  - destruct b; [right; split; [reflexivity | discriminate] | left; now right].
  - destruct (Z.eqb n 0); [left; now right | right; split; [reflexivity | discriminate]].
Qed.

Lemma question_cases (v : jsval) :
  absentOrBlank v
  \/ (jsTruthy v = true /\ forall s, v <> JStr s)
  \/ (exists q, v = JStr q /\ trim q <> []).
Proof.
  destruct (stringOrFalsy_cases v) as [[(q & Hq) | Hf] | Hn].
  - destruct (trim q) eqn:E.
    + left. right. now exists q.
    + right. right. exists q. split; [assumption | congruence].
  - left. now left.
  - right. now left.
Qed.

Lemma ask_status_nonblank
      (service : nat -> jstring -> jstring -> outcome jstring)
      (toLowerCase : jstring -> jstring)
      (data : list ServiceRecord) (req : AskBody) (st : GenState) (q : jstring) :
  question req = JStr q -> trim q <> [] ->
  exists resp, fst (askHandler service toLowerCase data req st) = Return resp
               /\ (status resp = 503 \/ status resp = 500 \/ status resp = 200).
Proof.
  intros Hq Hb.
  destruct data as [|d data].
  - rewrite (@ask_no_data service toLowerCase req st q Hq Hb).
    exists noDataLoaded. auto.
  - assert (Hd : d :: data <> []) by discriminate.
    destruct (stringOrFalsy_cases (townPref req)) as [Ht | [Ht Hs]].
    + rewrite (@ask_answers service toLowerCase (d :: data) req st q Hq Hb Hd Ht).
      destruct (chatModel st); eexists; (split; [reflexivity | auto]).
    + rewrite (@ask_bad_town service toLowerCase (d :: data) req st q Hq Hb Hd Ht Hs).
      exists serverError. auto.
Qed.

(** C5, as the code has it: a request whose question is absent, falsy or a
    blank string gets 400 "Missing question", whatever the directory; a
    request whose question is a non-blank string gets 503 "No data loaded.
    Run the ingestion script." when the directory is empty; and when the
    directory is not empty and the town value is a string or falsy, the
    response is 200 whatever the generator does, with the fallback
    paragraph as the answer when there is no generator or its call throws,
    and the retrieved records as sources. A response other than 200 is
    always produced without a request to the generator. A question that is
    truthy and not a string gets 500 "Server error"; so does a town value
    that is truthy and not a string, once the question is a non-blank
    string and the directory is not empty. *)
Theorem ask_validation_then_fallback
        (service : nat -> jstring -> jstring -> outcome jstring)
        (toLowerCase : jstring -> jstring)
        (data : list ServiceRecord) (req : AskBody) (st : GenState) :
  (absentOrBlank (question req) ->
     askHandler service toLowerCase data req st = (Return missingQuestion, st))
  /\ (forall q, question req = JStr q -> trim q <> [] -> data = [] ->
        askHandler service toLowerCase data req st = (Return noDataLoaded, st))
  /\ (forall q, question req = JStr q -> trim q <> [] -> data <> [] ->
        stringOrFalsy (townPref req) ->
        let scored :=
          keywordRetrieve toLowerCase data (Some q) (Some (townText (townPref req))) in
        let prompt := buildPrompt (Some q) (asProp (townPref req)) scored in
        (chatModel st = None
         \/ exists e, fst (generateWithRetry service prompt st) = Throw e) ->
        fst (askHandler service toLowerCase data req st)
        = Return (mkResponse 200
                    (AnswerBody
                       (writeFallbackParagraph scored (Some q) (asProp (townPref req)))
                       (map item scored))))
  /\ (forall q, question req = JStr q -> trim q <> [] -> data <> [] ->
        stringOrFalsy (townPref req) ->
        exists answer,
          fst (askHandler service toLowerCase data req st)
          = Return (mkResponse 200
                      (AnswerBody answer
                         (map item
                            (keywordRetrieve toLowerCase data (Some q)
                               (Some (townText (townPref req))))))))
  /\ (forall resp st',
        askHandler service toLowerCase data req st = (Return resp, st') ->
        status resp <> 200 -> st' = st)
  /\ (jsTruthy (question req) = true -> (forall s, question req <> JStr s) ->
      askHandler service toLowerCase data req st = (Return serverError, st))
  /\ (forall q, question req = JStr q -> trim q <> [] -> data <> [] ->
        jsTruthy (townPref req) = true -> (forall s, townPref req <> JStr s) ->
        askHandler service toLowerCase data req st = (Return serverError, st)).
Proof.
  split; [apply ask_missing|].
  split; [intros q Hq Hb ->; now apply ask_no_data with (q := q)|].
  split; [|split; [|split; [|split; [apply ask_nonstring | apply ask_bad_town]]]].
  - intros q Hq Hb Hd Ht scored prompt Hgen.
    rewrite (@ask_answers service toLowerCase data req st q Hq Hb Hd Ht).
    fold scored. fold prompt.
    destruct Hgen as [-> | (e & He)]; [reflexivity|].
    destruct (chatModel st); [|reflexivity].
    cbn [fst]. now rewrite He.
  - intros q Hq Hb Hd Ht.
    rewrite (@ask_answers service toLowerCase data req st q Hq Hb Hd Ht).
    destruct (chatModel st); eexists; reflexivity.
  - intros resp st' Hask Hst.
    destruct (question_cases (question req)) as [Hm | [[Ht Hs] | (q & Hq & Hb)]].
    + rewrite (@ask_missing service toLowerCase data req st Hm) in Hask. congruence.
    + rewrite (@ask_nonstring service toLowerCase data req st Ht Hs) in Hask.
      congruence.
    + destruct data as [|d data].
      * rewrite (@ask_no_data service toLowerCase req st q Hq Hb) in Hask. congruence.
      * assert (Hd : d :: data <> []) by discriminate.
        destruct (stringOrFalsy_cases (townPref req)) as [Htp | [Htp Hs]].
        -- rewrite (@ask_answers service toLowerCase (d :: data) req st q Hq Hb Hd Htp)
            in Hask.
           destruct (chatModel st); injection Hask as <- _; now contradiction Hst.
        -- rewrite (@ask_bad_town service toLowerCase (d :: data) req st q Hq Hb Hd Htp Hs)
            in Hask. congruence.
Qed.

Lemma ask_validation_then_fallback_witness :
  fst (askHandler (alwaysFails rateLimited) asciiToLowerCase [lindenMeals] askMeals onGeminiPro)
  = Return (mkResponse 200
              (AnswerBody
                 (u "Senior Meals Co serves Linden. Phone: 555-1111. More info: http://x")
                 [lindenMeals]))
  /\ askHandler (alwaysFails rateLimited) asciiToLowerCase [] askBlank onGeminiPro
     = (Return missingQuestion, onGeminiPro)
  /\ askHandler (alwaysFails rateLimited) asciiToLowerCase [] askMeals onGeminiPro
     = (Return noDataLoaded, onGeminiPro)
  /\ askHandler (alwaysFails rateLimited) asciiToLowerCase [lindenMeals] askNumber
                onGeminiPro
     = (Return serverError, onGeminiPro)
  /\ askHandler (alwaysFails rateLimited) asciiToLowerCase [lindenMeals] askNumberTown
                onGeminiPro
     = (Return serverError, onGeminiPro).
Proof.
  destruct (ask_validation_then_fallback (alwaysFails rateLimited) asciiToLowerCase
              [lindenMeals] askNumber onGeminiPro) as (_ & _ & _ & _ & _ & Hq5 & _).
  destruct (ask_validation_then_fallback (alwaysFails rateLimited) asciiToLowerCase
              [lindenMeals] askNumberTown onGeminiPro) as (_ & _ & _ & _ & _ & _ & Ht5).
  destruct (ask_validation_then_fallback (alwaysFails rateLimited) asciiToLowerCase
              [lindenMeals] askMeals onGeminiPro) as (_ & _ & H & _ & _).
  destruct (ask_validation_then_fallback (alwaysFails rateLimited) asciiToLowerCase
              [] askBlank onGeminiPro) as (Hm & _).
  destruct (ask_validation_then_fallback (alwaysFails rateLimited) asciiToLowerCase
              [] askMeals onGeminiPro) as (_ & Hn & _).
  split; [|split; [|split; [|split]]].
  - apply (H (u "meals in Linden")).
    + reflexivity.
    + vm_compute. discriminate.
    + discriminate.
    + left. eexists. reflexivity.
    + right. exists rateLimited. reflexivity.
  - apply Hm. right. exists (u "   "). split; reflexivity.
  - apply (Hn (u "meals in Linden")).
    + reflexivity.
    + vm_compute. discriminate.
    + reflexivity.
  - apply Hq5; [reflexivity | discriminate].
  - apply (Ht5 (u "meals")).
    + reflexivity.
    + vm_compute. discriminate.
    + discriminate.
    + reflexivity.
    + discriminate.
Defined.

(** A question that is a number is neither absent nor blank, yet with an
    empty directory the response is 500 and not 503; and a town value that
    is a number gives 500 although the question is valid, the directory is
    loaded and no generator is configured. *)
Lemma ask_nonstring_counterexample :
  ~ absentOrBlank (question askNumber)
  /\ askHandler (alwaysFails rateLimited) asciiToLowerCase [] askNumber noGenerator
     = (Return serverError, noGenerator)
  /\ askHandler (alwaysFails rateLimited) asciiToLowerCase [lindenMeals] askNumberTown
                noGenerator
     = (Return serverError, noGenerator).
Proof.
  split; [|split; reflexivity].
  intros [H | (s & H & _)]; discriminate.
Qed.

(** C10: a question that is truthy and not a string makes the blank check
    throw, and the response is 500 "Server error"; the handler always
    responds, and it responds 400 only when the question is falsy or a
    blank string, in which case the response is "Missing question". *)
Theorem ask_nonstring_question_is_server_error
        (service : nat -> jstring -> jstring -> outcome jstring)
        (toLowerCase : jstring -> jstring)
        (data : list ServiceRecord) (req : AskBody) (st : GenState) :
  (jsTruthy (question req) = true -> (forall s, question req <> JStr s) ->
     askHandler service toLowerCase data req st = (Return serverError, st))
  /\ (exists resp, fst (askHandler service toLowerCase data req st) = Return resp)
  /\ (forall resp,
        fst (askHandler service toLowerCase data req st) = Return resp ->
        status resp = 400 ->
        absentOrBlank (question req) /\ resp = missingQuestion).
Proof.
  split; [apply ask_nonstring|].
  destruct (question_cases (question req)) as [Hm | [[Ht Hs] | (q & Hq & Hb)]].
  - rewrite (@ask_missing service toLowerCase data req st Hm). cbn [fst].
    split; [now exists missingQuestion|].
    intros resp Hr _. injection Hr as <-. now split.
  - rewrite (@ask_nonstring service toLowerCase data req st Ht Hs). cbn [fst].
    split; [now exists serverError|].
    intros resp Hr H400. injection Hr as <-. discriminate.
  - destruct (@ask_status_nonblank service toLowerCase data req st q Hq Hb)
      as (resp & Hr & Hst).
    split; [now exists resp|].
    intros resp' Hr' H400. rewrite Hr in Hr'. injection Hr' as <-. lia.
Qed.

Lemma ask_nonstring_question_is_server_error_witness :
  askHandler (failsFirst notFound404 (u "hello")) asciiToLowerCase [lindenMeals]
             askNumber onGeminiPro
  = (Return serverError, onGeminiPro)
  /\ absentOrBlank (question askBlank).
Proof.
  destruct (ask_nonstring_question_is_server_error
              (failsFirst notFound404 (u "hello")) asciiToLowerCase [lindenMeals]
              askNumber onGeminiPro) as (H & _).
  destruct (ask_nonstring_question_is_server_error
              (failsFirst notFound404 (u "hello")) asciiToLowerCase [lindenMeals]
              askBlank onGeminiPro) as (_ & _ & Hb).
  split.
  - apply H; [reflexivity | discriminate].
  - apply (Hb missingQuestion); reflexivity.
Defined.

Example ask_generated_answer :
  askHandler (failsFirst notFound404 (u "Try Senior Meals Co.")) asciiToLowerCase
             [lindenMeals] askMeals onGeminiPro
  = (Return (mkResponse 200 (AnswerBody (u "Try Senior Meals Co.") [lindenMeals])),
     mkGen (Some DEFAULT_MODEL) DEFAULT_MODEL
           [(GEMINI_PRO, buildPrompt (Some (u "meals in Linden")) (Some (u "Linden"))
                                     [mkScored lindenMeals 3]);
            (DEFAULT_MODEL, buildPrompt (Some (u "meals in Linden")) (Some (u "Linden"))
                                        [mkScored lindenMeals 3])]).
Proof. vm_compute. reflexivity. Qed.

(* ====================================================================== *)
(** * More on the keyword retriever *)
(* ====================================================================== *)

Lemma overlap_le_length (h : jstring) (ts : list jstring) : overlap h ts <= length ts.
Proof. unfold overlap. apply filter_length_le. Qed.

Lemma overlap_zero (h : jstring) (ts : list jstring) :
  (forall t, In t ts -> includes h t = false) -> overlap h ts = 0.
Proof.
  unfold overlap. induction ts as [|t ts IH]; intros H; simpl; [reflexivity|].
  rewrite (H t) by now left. apply IH. intros; apply H; now right.
Qed.

Lemma filter_filter_and (A : Type) (f g : A -> bool) (l : list A) :
  filter f (filter g l) = filter (fun x => g x && f x) l.
Proof.
  induction l as [|x l IH]; simpl; [reflexivity|].
  destruct (g x); simpl; [destruct (f x)|]; now rewrite IH.
Qed.

Lemma descending_head (x : ScoredRecord) (l : list ScoredRecord) (s : ScoredRecord) :
  descending (x :: l) -> In s (x :: l) -> score s <= score x.
Proof.
  intros H [<-|Hs]; [lia|].
  inversion H as [|? ? _ Hx]; subst. rewrite Forall_forall in Hx. now apply Hx.
Qed.

Section RetrievalMore.
Variable toLowerCase : jstring -> jstring.

Notation "'retrieve'" := (keywordRetrieve toLowerCase).
Notation "'hay'" := (haystack toLowerCase).
Notation "'tokens'" := (tokenize toLowerCase).
Notation "'key'" := (townKey toLowerCase).
Notation "'passes'" := (townOk toLowerCase).

Lemma matched_nonempty_filter (ts : list jstring) (tp : jstring)
      (data : list ServiceRecord) :
  matched toLowerCase ts tp data <> [] -> filter (passes tp) data <> [].
Proof.
  unfold matched. intros H Hf. apply H.
  replace (filter _ data) with (@nil ServiceRecord); [reflexivity|].
  symmetry. rewrite <- (filter_filter_and (fun d => 0 <? overlap (hay d) ts) (passes tp)).
  now rewrite Hf.
Qed.

(** X1: every record [keywordRetrieve] returns is a record of the directory
    that passes the town filter; with a non-empty filter key, its
    lower-cased town contains the key. *)
Theorem retrieve_within_filter (data : list ServiceRecord) (q tp : jsprop) :
  Forall (fun s => In (item s) data
                   /\ passes (key tp) (item s) = true
                   /\ (key tp <> [] ->
                       includes (toLowerCase (orElse (town (item s)) [])) (key tp) = true))
         (retrieve data q tp).
Proof.
  rewrite Forall_forall. intros s Hs.
  assert (H : In (item s) data /\ passes (key tp) (item s) = true).
  { destruct (retrieve_in_cases _ _ _ _ _ Hs) as [Hm | [_ Hf]].
    - pose proof (matched_positive toLowerCase (tokens q) (key tp) data) as Hall.
      rewrite Forall_forall in Hall. destruct (Hall _ Hm) as (_ & _ & Hok & Hin). auto.
    - unfold firstTwoFiltered in Hf. apply in_map_iff in Hf as (d & <- & Hd).
      apply In_firstn in Hd. apply filter_In in Hd as [Hin Hok]. auto. }
  destruct H as [Hin Hok]. repeat split; try assumption.
  intros Hk. unfold townOk in Hok.
  destruct (key tp) as [|c k]; [congruence|]. exact Hok.
Qed.

(** X2: [keywordRetrieve] returns the empty list exactly when no record of
    the directory passes the town filter; in particular on the empty
    directory. *)
Theorem retrieve_empty_iff (data : list ServiceRecord) (q tp : jsprop) :
  retrieve data q tp = [] <-> filter (passes (key tp)) data = [].
Proof.
  rewrite keywordRetrieve_eq.
  destruct (matched toLowerCase (tokens q) (key tp) data) as [|m ms] eqn:E.
  - unfold firstTwoFiltered.
    destruct (filter (passes (key tp)) data) as [|x [|y l]]; simpl;
      split; intros H; try reflexivity; discriminate.
  - assert (Hf : filter (passes (key tp)) data <> [])
      by (apply matched_nonempty_filter with (ts := tokens q); rewrite E; discriminate).
    split; [|intros H; contradiction].
    intros H. apply (f_equal (@length _)) in H.
    rewrite length_firstn in H.
    rewrite (Permutation_length (js_sort_perm byScoreDesc (m :: ms))) in H.
    cbn [length] in H. lia.
Qed.

(** X3: the first record returned has the largest token overlap among the
    records that pass the town filter: no such record of the directory has
    an overlap above the score of the first result. *)
Theorem retrieve_top_is_best (data : list ServiceRecord) (q tp : jsprop)
        (top : ScoredRecord) (rest : list ScoredRecord) (d : ServiceRecord) :
  retrieve data q tp = top :: rest ->
  In d data -> passes (key tp) d = true ->
  overlap (hay d) (tokens q) <= score top.
Proof.
  rewrite keywordRetrieve_eq.
  destruct (matched toLowerCase (tokens q) (key tp) data) as [|m ms] eqn:E.
  - intros _ Hd Hok.
    pose proof (matched_nil_noOverlap toLowerCase data q tp E) as Hno.
    rewrite (overlap_zero (hay d) (tokens q)); [lia|].
    intros t Ht. now apply (Hno d).
  - rewrite <- E. intros Hr Hd Hok.
    destruct (overlap (hay d) (tokens q)) as [|n] eqn:Eo; [lia|]. rewrite <- Eo.
    assert (Hin : In (mkScored d (overlap (hay d) (tokens q)))
                     (js_sort byScoreDesc (matched toLowerCase (tokens q) (key tp) data))).
    { eapply Permutation_in; [symmetry; apply js_sort_perm|].
      unfold matched. apply in_map_iff. exists d. split; [reflexivity|].
      apply filter_In. split; [assumption|].
      rewrite Hok, Eo. reflexivity. }
    pose proof (js_sort_descending (matched toLowerCase (tokens q) (key tp) data)) as Hdesc.
    destruct (js_sort byScoreDesc (matched toLowerCase (tokens q) (key tp) data))
      as [|x l]; [destruct Hin|].
    simpl in Hr. injection Hr as -> _.
    apply (descending_head Hdesc Hin).
Qed.

(** X4: a returned score never exceeds the number of question tokens, or 1
    when the question has none. *)
Theorem retrieve_score_bounded (data : list ServiceRecord) (q tp : jsprop) :
  Forall (fun s => score s <= Nat.max 1 (length (tokens q))) (retrieve data q tp).
Proof.
  rewrite Forall_forall. intros s Hs.
  destruct (retrieve_score_cases _ _ _ _ _ Hs) as [[-> _] | [_ ->]].
  - pose proof (overlap_le_length (hay (item s)) (tokens q)). lia.
  - lia.
Qed.

(** X5: records that fail the town filter have no effect on the result:
    retrieving from the directory and retrieving from its town-filtered
    part give the same list. *)
Theorem retrieve_filter_first (data : list ServiceRecord) (q tp : jsprop) :
  retrieve data q tp = retrieve (filter (passes (key tp)) data) q tp.
Proof.
  rewrite !keywordRetrieve_eq.
  assert (Hm : matched toLowerCase (tokens q) (key tp) (filter (passes (key tp)) data)
               = matched toLowerCase (tokens q) (key tp) data).
  { unfold matched. f_equal. rewrite filter_filter_and.
    apply filter_ext. intros d. destruct (passes (key tp) d); reflexivity. }
  assert (Hf : firstTwoFiltered toLowerCase (filter (passes (key tp)) data) tp
               = firstTwoFiltered toLowerCase data tp).
  { unfold firstTwoFiltered. do 2 f_equal. rewrite filter_filter_and.
    apply filter_ext. intros d. destruct (passes (key tp) d); reflexivity. }
  now rewrite Hm, Hf.
Qed.
End RetrievalMore.

Lemma retrieve_within_filter_witness :
  includes (asciiToLowerCase (u "Rahway")) (u "rah") = true.
Proof.
  pose proof (retrieve_within_filter asciiToLowerCase directory3
                (Some (u "meals")) (Some (u "RAH"))) as H.
  change (keywordRetrieve asciiToLowerCase directory3 (Some (u "meals")) (Some (u "RAH")))
    with [mkScored rahwayMeals 1] in H.
  inversion H as [|? ? (_ & _ & Hk) _]; subst.
  apply Hk. discriminate.
Defined.

Lemma retrieve_top_is_best_witness :
  overlap (haystack asciiToLowerCase lindenMeals)
          (tokenize asciiToLowerCase (Some (u "Rides  in rahway"))) <= 2.
Proof.
  apply (@retrieve_top_is_best asciiToLowerCase directory3
           (Some (u "Rides  in rahway")) None
           (mkScored lindenRides 2) [mkScored lindenMeals 1] lindenMeals).
  - reflexivity.
  - left. reflexivity.
  - reflexivity.
Defined.

(* ====================================================================== *)
(** * More on the fallback paragraph and the prompt *)
(* ====================================================================== *)

Lemma includes_refl (s : jstring) : includes s s = true.
Proof. apply includes_iff. exists [], []. now rewrite app_nil_r. Qed.

Lemma includes_trans (a b c : jstring) :
  includes a b = true -> includes b c = true -> includes a c = true.
Proof.
  rewrite !includes_iff. intros (p1 & q1 & ->) (p2 & q2 & ->).
  exists (p1 ++ p2), (q2 ++ q1). now rewrite <- !app_assoc.
Qed.

Lemma includes_left (a b x : jstring) :
  includes a x = true -> includes (a ++ b) x = true.
Proof.
  rewrite !includes_iff. intros (p & q & ->).
  exists p, (q ++ b). now rewrite <- !app_assoc.
Qed.

Lemma includes_right (a b x : jstring) :
  includes b x = true -> includes (a ++ b) x = true.
Proof.
  rewrite !includes_iff. intros (p & q & ->).
  exists (a ++ p), q. now rewrite <- !app_assoc.
Qed.

Lemma includes_concat (x : jstring) (l : list jstring) :
  In x l -> includes (concat l) x = true.
Proof.
  induction l as [|y l IH]; intros H; [destruct H|].
  simpl concat. destruct H as [->|H].
  - apply includes_left, includes_refl.
  - now apply includes_right, IH.
Qed.

Lemma whenPresent_In (v : jsprop) (render : jstring -> jstring) :
  truthy v = true -> In (render (tpl v)) (whenPresent v render).
Proof. destruct v as [[|c s]|]; simpl; intros H; try discriminate. now left. Qed.

Lemma fallback_nonempty (scored : list ScoredRecord) (q tp : jsprop) :
  writeFallbackParagraph scored q tp <> [].
Proof.
  rewrite writeFallbackParagraph_composeFallback.
  destruct scored as [|s rest]; unfold composeFallback.
  - unfold apologySentence.
    destruct tp as [[|c t]|]; intros H; apply app_eq_nil in H as [H _]; discriminate.
  - cbv zeta. cbn [app]. apply join_nonempty.
    intros H. apply app_eq_nil in H as [_ H]. apply app_eq_nil in H as [H _].
    discriminate.
Qed.

(** X6: the fallback paragraph is never the empty string, for an empty as
    for a non-empty list of scored records. *)
Theorem fallback_never_empty (scored : list ScoredRecord) (q tp : jsprop) :
  writeFallbackParagraph scored q tp <> [].
Proof. apply fallback_nonempty. Qed.

(** X7: the paragraph of a non-empty list names the first record and its
    town, and carries each of its notes, hours, address and url that is not
    empty. *)
Theorem fallback_mentions_present_fields
        (s : ScoredRecord) (rest : list ScoredRecord) (q tp : jsprop) :
  let p := writeFallbackParagraph (s :: rest) q tp in
  includes p (tpl (name (item s)) ++ u " serves " ++ tpl (town (item s)) ++ u ".") = true
  /\ (truthy (notes (item s)) = true -> includes p (tpl (notes (item s))) = true)
  /\ (truthy (hours (item s)) = true ->
      includes p (u "Hours: " ++ tpl (hours (item s)) ++ u ".") = true)
  /\ (truthy (address (item s)) = true ->
      includes p (u "Address: " ++ tpl (address (item s)) ++ u ".") = true)
  /\ (truthy (url (item s)) = true ->
      includes p (u "More info: " ++ tpl (url (item s))) = true).
Proof.
  cbv zeta. rewrite writeFallbackParagraph_composeFallback. unfold composeFallback.
  cbv zeta.
  split; [apply includes_join; now left|].
  split; [|split; [|split]]; intros H; apply includes_join.
  - apply in_or_app; right. apply in_or_app; left.
    apply (@whenPresent_In (notes (item s)) (fun n => n) H).
  - apply in_or_app; right. apply in_or_app; right. apply in_or_app; left.
    apply (@whenPresent_In (hours (item s)) (fun h => u "Hours: " ++ h ++ u ".") H).
  - do 3 (apply in_or_app; right). apply in_or_app; left.
    apply (@whenPresent_In (address (item s)) (fun a => u "Address: " ++ a ++ u ".") H).
  - do 5 (apply in_or_app; right).
    apply (@whenPresent_In (url (item s)) (fun l => u "More info: " ++ l) H).
Qed.

Lemma fallback_mentions_present_fields_witness :
  includes (writeFallbackParagraph [mkScored lindenRides 2] None None)
           (u "Hours: 9-5.") = true
  /\ includes (writeFallbackParagraph [mkScored lindenRides 2] None None)
              (u "More info: http://r") = true.
Proof.
  destruct (fallback_mentions_present_fields (mkScored lindenRides 2) [] None None)
    as (_ & _ & Hh & _ & Hu).
  split; [apply Hh | apply Hu]; reflexivity.
Defined.

Lemma prompt_includes_line (q tp : jsprop) (scored : list ScoredRecord) (s : ScoredRecord) :
  In s scored -> includes (buildPrompt q tp scored) (contextLine s) = true.
Proof.
  intros Hs. rewrite buildPrompt_promptText. unfold promptText.
  do 10 apply includes_right. apply includes_left.
  destruct scored as [|s0 rest]; [destruct Hs|].
  apply includes_join.
  apply in_map_iff. exists s. split; [apply eq_sym, contextLine_segments | exact Hs].
Qed.

(** X8: the prompt begins with the guardrails and ends with the closing
    instruction; it carries the question between triple quotes, the
    preferred town when one is given, and the line of every scored
    record. *)
Theorem prompt_carries_question_and_lines
        (q tp : jsprop) (scored : list ScoredRecord) :
  let p := buildPrompt q tp scored in
  startsWith p guardrails = true
  /\ (exists body, p = body ++ promptClosing)
  /\ includes p ([DQUOTE; DQUOTE; DQUOTE] ++ tpl q ++ [DQUOTE; DQUOTE; DQUOTE]) = true
  /\ (truthy tp = true -> includes p (u "Preferred town: " ++ tpl tp) = true)
  /\ (forall s, In s scored -> includes p (contextLine s) = true).
Proof.
  cbv zeta.
  assert (Hl : forall s, In s scored ->
                 includes (buildPrompt q tp scored) (contextLine s) = true)
    by (intros s; apply prompt_includes_line).
  revert Hl. rewrite buildPrompt_promptText. unfold promptText. intros Hl.
  split; [apply startsWith_app|].
  split.
  { eexists. rewrite !app_assoc. reflexivity. }
  split.
  { do 3 apply includes_right. apply includes_iff.
    exists [], ([LF] ++ townLine tp ++ [LF; LF] ++ u "Local Directory:" ++ [LF]
                ++ match scored with
                   | [] => u "(no matches)"
                   | _ => join [LF] (map (fun s => concat (lineSegments (item s))) scored)
                   end ++ [LF] ++ promptClosing).
    rewrite <- !app_assoc. reflexivity. }
  split.
  { intros H. do 6 apply includes_right. apply includes_left.
    destruct tp as [[|c t]|]; try discriminate. apply includes_refl. }
  exact Hl.
Qed.

Lemma prompt_carries_question_and_lines_witness :
  includes (buildPrompt (Some (u "meals")) (Some (u "Linden")) [mkScored lindenMeals 1])
           (u "Preferred town: Linden") = true
  /\ includes (buildPrompt (Some (u "meals")) (Some (u "Linden")) [mkScored lindenMeals 1])
              (contextLine (mkScored lindenMeals 1)) = true.
Proof.
  destruct (prompt_carries_question_and_lines (Some (u "meals")) (Some (u "Linden"))
              [mkScored lindenMeals 1]) as (_ & _ & _ & Ht & Hl).
  split; [apply Ht; reflexivity | apply Hl; now left].
Defined.

(** X9: the prompt carries the contact details of every scored record: its
    phone and hours, or N/A for an empty one, its areas, and its address,
    link and notes when they are not empty. *)
Theorem prompt_carries_contact_details
        (q tp : jsprop) (scored : list ScoredRecord) (s : ScoredRecord) :
  In s scored ->
  let p := buildPrompt q tp scored in
  let r := item s in
  includes p (u "Phone: " ++ orElse (phone r) (u "N/A") ++ u "; ") = true
  /\ includes p (u "Hours: " ++ orElse (hours r) (u "N/A") ++ u "; ") = true
  /\ includes p (u "Area: "
                 ++ join (u ", ") (match area r with Some a => a | None => [] end)
                 ++ u "; ") = true
  /\ (truthy (address r) = true ->
      includes p (u "Address: " ++ tpl (address r) ++ u "; ") = true)
  /\ (truthy (url r) = true -> includes p (u "Link: " ++ tpl (url r) ++ u "; ") = true)
  /\ (truthy (notes r) = true -> includes p (u "Notes: " ++ tpl (notes r)) = true).
Proof.
  intros Hs p r.
  assert (Hline : forall x, includes (contextLine s) x = true -> includes p x = true)
    by (intros x; apply includes_trans; now apply prompt_includes_line).
  assert (Hseg : forall x, In x (lineSegments r) -> includes p x = true)
    by (intros x Hx; apply Hline; rewrite contextLine_segments; now apply includes_concat).
  split; [|split; [|split; [|split; [|split]]]].
  - apply Hline. rewrite contextLine_segments. unfold lineSegments. fold r.
    eapply includes_trans.
    + apply includes_concat. apply in_or_app; left. right; right; left. reflexivity.
    + rewrite <- orElse_match. apply includes_iff. exists (u " " ++ [EMDASH] ++ u " "), [].
      rewrite app_nil_r. reflexivity.
  - apply Hseg. unfold lineSegments.
    do 2 (apply in_or_app; right). apply in_or_app; left. left.
    now rewrite <- orElse_match.
  - apply Hseg. unfold lineSegments.
    do 2 (apply in_or_app; right). apply in_or_app; left. right; left. reflexivity.
  - intros H. apply Hseg. unfold lineSegments.
    apply in_or_app; right. apply in_or_app; left.
    apply (@whenPresent_In (address r) (fun a => u "Address: " ++ a ++ u "; ") H).
  - intros H. apply Hseg. unfold lineSegments.
    do 3 (apply in_or_app; right). apply in_or_app; left.
    apply (@whenPresent_In (url r) (fun l => u "Link: " ++ l ++ u "; ") H).
  - intros H. apply Hseg. unfold lineSegments.
    do 4 (apply in_or_app; right).
    apply (@whenPresent_In (notes r) (fun n => u "Notes: " ++ n) H).
Qed.

Lemma prompt_carries_contact_details_witness :
  includes (buildPrompt (Some (u "rides")) None [mkScored lindenRides 1])
           (u "Phone: N/A; ") = true
  /\ includes (buildPrompt (Some (u "rides")) None [mkScored lindenRides 1])
              (u "Link: http://r; ") = true.
Proof.
  destruct (@prompt_carries_contact_details (Some (u "rides")) None
              [mkScored lindenRides 1] (mkScored lindenRides 1))
    as (Hp & _ & _ & _ & Hl & _); [now left|].
  split; [exact Hp | apply Hl; reflexivity].
Defined.

(* ====================================================================== *)
(** * More on the generator: start, client and retries of the process *)
(* ====================================================================== *)

Lemma retryBudget_default (st : GenState) :
  currentModelName st = DEFAULT_MODEL -> retryBudget st = 0.
Proof.
  intros H. unfold retryBudget. apply jstring_eqb_eq in H. now rewrite H.
Qed.

Lemma retryBudget_le (st : GenState) : retryBudget st <= 1.
Proof. unfold retryBudget. destruct (jstring_eqb _ _); lia. Qed.

Lemma retries_budget (st : GenState) (err : JsError) :
  retries st err = true -> retryBudget st = 1.
Proof.
  unfold retries, retryBudget. intros H. apply andb_true_iff in H as [_ H].
  now destruct (jstring_eqb (currentModelName st) DEFAULT_MODEL).
Qed.

(** What one call of [generateWithRetry] does to the process state. *)
Lemma generateWithRetry_step
      (service : nat -> jstring -> jstring -> outcome jstring)
      (prompt : jstring) (st : GenState) :
  let st' := snd (generateWithRetry service prompt st) in
  (exists new, calls st' = calls st ++ new
               /\ length new <= 2
               /\ Forall (fun c => snd c = prompt) new
               /\ (clientBound st ->
                   Forall (fun c => fst c = currentModelName st
                                    \/ fst c = DEFAULT_MODEL) new))
  /\ (clientBound st -> clientBound st')
  /\ length (calls st') + retryBudget st' <= length (calls st) + retryBudget st + 1
  /\ (currentModelName st' = currentModelName st
      \/ currentModelName st' = DEFAULT_MODEL)
  /\ (chatModel st' = None <-> chatModel st = None).
Proof.
  cbv zeta. rewrite generateWithRetry_eq.
  destruct (chatModel st) as [model|] eqn:Ecm.
  - destruct (service (length (calls st)) model prompt) as [t|err].
    + cbn [snd logged calls currentModelName chatModel].
      split; [exists [(model, prompt)]; repeat split; auto|].
      * intros Hb. constructor; [|constructor]. left. symmetry. now apply Hb.
      * split; [intros Hb m Hm; apply Hb; cbn [logged chatModel] in Hm; congruence|].
        split; [unfold retryBudget; cbn [currentModelName];
                rewrite length_app; simpl; lia|].
        split; [now left|]. rewrite Ecm. tauto.
    + destruct (retries st err) eqn:Er.
      * cbn [snd calls currentModelName chatModel].
        split; [exists [(model, prompt); (DEFAULT_MODEL, prompt)]; repeat split; auto|].
        -- intros Hb. constructor; [|constructor; [|constructor]].
           ++ left. symmetry. now apply Hb.
           ++ now right.
        -- split; [intros _ m Hm; cbn [chatModel currentModelName] in *;
                   now injection Hm|].
           split; [rewrite (retries_budget _ _ Er), length_app;
                   rewrite retryBudget_default by reflexivity; simpl; lia|].
           split; [now right|]. split; discriminate.
      * cbn [snd logged calls currentModelName chatModel].
        split; [exists [(model, prompt)]; repeat split; auto|].
        -- intros Hb. constructor; [|constructor]. left. symmetry. now apply Hb.
        -- split; [intros Hb m Hm; apply Hb; cbn [logged chatModel] in Hm; congruence|].
           split; [unfold retryBudget; cbn [currentModelName];
                   rewrite length_app; simpl; lia|].
           split; [now left|]. rewrite Ecm. tauto.
  - cbn [snd]. split; [exists []; rewrite app_nil_r; repeat split; auto|].
    split; [auto|]. split; [lia|]. split; [now left|]. rewrite Ecm. tauto.
Qed.

(** X10: one call of [generateWithRetry] only appends to the log of
    requests, at most two of them and all for the prompt it was given; it
    keeps the client bound to the current model name and sends each request
    either to that model or to the default one; it changes the current
    model name to the default or not at all, and neither creates nor drops
    the client. *)
Theorem generateWithRetry_keeps_client_bound
        (service : nat -> jstring -> jstring -> outcome jstring)
        (prompt : jstring) (st : GenState) :
  clientBound st ->
  let st' := snd (generateWithRetry service prompt st) in
  clientBound st'
  /\ (exists new, calls st' = calls st ++ new
                  /\ length new <= 2
                  /\ Forall (fun c => snd c = prompt
                                      /\ (fst c = currentModelName st
                                          \/ fst c = DEFAULT_MODEL)) new)
  /\ (currentModelName st' = currentModelName st
      \/ currentModelName st' = DEFAULT_MODEL)
  /\ (chatModel st' = None <-> chatModel st = None).
Proof.
  intros Hb st'.
  destruct (generateWithRetry_step service prompt st)
    as ((new & Hc & Hl & Hp & Hm) & Hcb & _ & Hn & Hcm).
  split; [now apply Hcb|].
  split; [|split; assumption].
  exists new. repeat split; try assumption.
  specialize (Hm Hb). rewrite Forall_forall in *. intros c Hin. auto.
Qed.

Lemma generateWithRetry_keeps_client_bound_witness :
  clientBound (snd (generateWithRetry (failsFirst notFound404 (u "hello"))
                                      (u "prompt") onGeminiPro)).
Proof.
  apply (@generateWithRetry_keeps_client_bound
           (failsFirst notFound404 (u "hello")) (u "prompt") onGeminiPro).
  intros m Hm. injection Hm as <-. reflexivity.
Defined.

(** X11: module start never throws and sends no request. It leaves the
    client bound to the configured model name ([MODEL_NAME], or the default
    when that is unset or empty) if the SDK accepts it, else to the default
    model if the SDK accepts that, else no client at all, with the
    configured name still the current one. *)
Theorem startup_binds_client (sdk : jstring -> option JsError) (envModelName : jsprop) :
  let configured := orElse envModelName DEFAULT_MODEL in
  let st := snd (startup sdk envModelName) in
  fst (startup sdk envModelName) = Return tt
  /\ calls st = []
  /\ clientBound st
  /\ (sdk configured = None ->
      chatModel st = Some configured /\ currentModelName st = configured)
  /\ (sdk configured <> None -> sdk DEFAULT_MODEL = None ->
      chatModel st = Some DEFAULT_MODEL /\ currentModelName st = DEFAULT_MODEL)
  /\ (sdk configured <> None -> sdk DEFAULT_MODEL <> None ->
      chatModel st = None /\ currentModelName st = configured).
Proof.
  cbv zeta. unfold startup, tryCatch, initModelVia, initModel, throw, ret.
  destruct (sdk (orElse envModelName DEFAULT_MODEL)) as [e|] eqn:E1.
  - destruct (sdk DEFAULT_MODEL) as [e2|] eqn:E2; cbn [fst snd calls chatModel currentModelName].
    + repeat split; try discriminate; try congruence.
    + repeat split; try discriminate; try congruence.
      intros m Hm. now injection Hm.
  - cbn [fst snd calls chatModel currentModelName].
    repeat split; try discriminate; try congruence.
    intros m Hm. now injection Hm.
Qed.

Lemma startup_binds_client_witness :
  startup (refuses GEMINI_PRO) (Some GEMINI_PRO) = (Return tt, onDefault)
  /\ startup refusesAll (Some GEMINI_PRO) = (Return tt, mkGen None GEMINI_PRO [])
  /\ chatModel (snd (startup (refuses GEMINI_PRO) None)) = Some DEFAULT_MODEL.
Proof.
  split; [reflexivity|]. split; [reflexivity|].
  destruct (startup_binds_client (refuses GEMINI_PRO) None) as (_ & _ & _ & H & _).
  apply H. reflexivity.
Defined.

(* ====================================================================== *)
(** * More on the answer endpoint *)
(* ====================================================================== *)

Section EndpointMore.
Variable service : nat -> jstring -> jstring -> outcome jstring.
Variable toLowerCase : jstring -> jstring.

Notation "'ask'" := (askHandler service toLowerCase).
Notation "'retrieve'" := (keywordRetrieve toLowerCase).

(** The four ways a request ends. *)
Lemma ask_cases (data : list ServiceRecord) (req : AskBody) (st : GenState) :
  ask data req st = (Return missingQuestion, st)
  \/ ask data req st = (Return noDataLoaded, st)
  \/ ask data req st = (Return serverError, st)
  \/ exists q,
       question req = JStr q /\ trim q <> [] /\ data <> []
       /\ stringOrFalsy (townPref req)
       /\ ask data req st
          = match chatModel st with
            | None =>
                (Return (mkResponse 200 (AnswerBody (fallbackFor toLowerCase data req q)
                                                    (map item (scoredFor toLowerCase data req q)))),
                 st)
            | Some _ =>
                (Return (mkResponse 200
                           (AnswerBody
                              match fst (generateWithRetry service (promptFor toLowerCase data req q) st) with
                              | Return (c :: t) => c :: t
                              | _ => fallbackFor toLowerCase data req q
                              end
                              (map item (scoredFor toLowerCase data req q)))),
                 snd (generateWithRetry service (promptFor toLowerCase data req q) st))
            end.
Proof.
  destruct (question_cases (question req)) as [Hm | [[Ht Hs] | (q & Hq & Hb)]].
  - left. now apply ask_missing.
  - right; right; left. now apply ask_nonstring.
  - destruct data as [|d data].
    + right; left. now apply ask_no_data with (q := q).
    + assert (Hd : d :: data <> []) by discriminate.
      destruct (stringOrFalsy_cases (townPref req)) as [Htp | [Htp Hs]].
      * right; right; right. exists q. repeat split; try assumption.
        apply (@ask_answers service toLowerCase (d :: data) req st q Hq Hb Hd Htp).
      * right; right; left. now apply ask_bad_town with (q := q).
Qed.

Lemma retrieve_length_le (data : list ServiceRecord) (q tp : jsprop) :
  length (retrieve data q tp) <= 2.
Proof.
  rewrite keywordRetrieve_eq.
  destruct (matched toLowerCase _ _ data).
  - unfold firstTwoFiltered. rewrite length_map. apply firstn_le_length.
  - apply firstn_le_length.
Qed.

Lemma retrieve_items_in_data (data : list ServiceRecord) (q tp : jsprop) (d : ServiceRecord) :
  In d (map item (retrieve data q tp)) -> In d data.
Proof.
  intros H. apply in_map_iff in H as (s & <- & Hs).
  destruct (retrieve_in_cases _ _ _ _ _ Hs) as [Hm | [_ Hf]].
  - pose proof (matched_positive toLowerCase (tokenize toLowerCase q)
                                 (townKey toLowerCase tp) data) as Hall.
    rewrite Forall_forall in Hall. now destruct (Hall _ Hm) as (_ & _ & _ & Hin).
  - unfold firstTwoFiltered in Hf. apply in_map_iff in Hf as (x & <- & Hx).
    apply In_firstn in Hx. now apply filter_In in Hx as [Hin _].
Qed.

Lemma retrieve_nil_of_filter_nil (data : list ServiceRecord) (q tp : jsprop) :
  filter (townOk toLowerCase (townKey toLowerCase tp)) data = [] ->
  retrieve data q tp = [].
Proof.
  intros Hf. rewrite keywordRetrieve_eq.
  destruct (matched toLowerCase (tokenize toLowerCase q) (townKey toLowerCase tp) data)
    as [|m ms] eqn:E.
  - unfold firstTwoFiltered. now rewrite Hf.
  - exfalso. apply (@matched_nonempty_filter toLowerCase (tokenize toLowerCase q)
                      (townKey toLowerCase tp) data); [rewrite E; discriminate | exact Hf].
Qed.

(** X12: the handler always responds, with one of four responses: 400
    "Missing question", 503 "No data loaded. Run the ingestion script.",
    500 "Server error", or 200 with an answer that is never the empty
    string and at most 2 sources, each a record of the directory. *)
Theorem ask_response_shape (data : list ServiceRecord) (req : AskBody) (st : GenState) :
  exists resp,
    fst (ask data req st) = Return resp
    /\ (resp = missingQuestion \/ resp = noDataLoaded \/ resp = serverError
        \/ exists answer sources,
             resp = mkResponse 200 (AnswerBody answer sources)
             /\ answer <> []
             /\ length sources <= 2
             /\ forall d, In d sources -> In d data).
Proof.
  destruct (ask_cases data req st) as [H | [H | [H | (q & _ & _ & _ & _ & H)]]];
    rewrite H.
  - exists missingQuestion. auto.
  - exists noDataLoaded. auto.
  - exists serverError. auto.
  - assert (Hsrc : length (map item (scoredFor toLowerCase data req q)) <= 2
                   /\ forall d, In d (map item (scoredFor toLowerCase data req q)) -> In d data).
    { split; [rewrite length_map; apply retrieve_length_le|].
      intros d. apply retrieve_items_in_data. }
    destruct Hsrc as [Hlen Hin].
    destruct (chatModel st); eexists; (split; [reflexivity|]);
      right; right; right; eexists _, _; (split; [reflexivity|]);
      (split; [|split; assumption]).
    + destruct (fst (generateWithRetry service (promptFor toLowerCase data req q) st))
        as [[|c t]|e]; try apply fallback_nonempty. discriminate.
    + apply fallback_nonempty.
Qed.

(** X13: on an accepted request with a client, a non-empty text returned
    by the generator is the answer as it is, and an empty text is replaced
    by the fallback paragraph; the sources are the retrieved records in
    both cases. *)
Theorem ask_uses_generated_text
        (data : list ServiceRecord) (req : AskBody) (st : GenState)
        (q text model : jstring) :
  question req = JStr q -> trim q <> [] -> data <> [] ->
  stringOrFalsy (townPref req) ->
  chatModel st = Some model ->
  fst (generateWithRetry service (promptFor toLowerCase data req q) st) = Return text ->
  fst (ask data req st)
  = Return (mkResponse 200
              (AnswerBody (match text with
                           | [] => fallbackFor toLowerCase data req q
                           | _ => text
                           end)
                          (map item (scoredFor toLowerCase data req q)))).
Proof.
  intros Hq Hb Hd Ht Hcm Hgen.
  rewrite (@ask_answers service toLowerCase data req st q Hq Hb Hd Ht).
  fold (scoredFor toLowerCase data req q). fold (promptFor toLowerCase data req q). fold (fallbackFor toLowerCase data req q).
  rewrite Hcm. cbn [fst]. rewrite Hgen. now destruct text.
Qed.

(** X14: a request appends at most two entries to the log of generator
    requests, and every entry it appends carries the prompt built from its
    own question, town and retrieved records. *)
Theorem ask_sends_own_prompt (data : list ServiceRecord) (req : AskBody) (st : GenState) :
  exists new,
    calls (snd (ask data req st)) = calls st ++ new
    /\ length new <= 2
    /\ forall c, In c new ->
         exists q, question req = JStr q /\ snd c = promptFor toLowerCase data req q.
Proof.
  destruct (ask_cases data req st) as [H | [H | [H | (q & Hq & _ & _ & _ & H)]]];
    rewrite H; cbn [snd];
    try (exists []; rewrite app_nil_r; repeat split; [simpl; lia | intros c []]).
  destruct (chatModel st).
  - cbn [snd].
    destruct (generateWithRetry_step service (promptFor toLowerCase data req q) st)
      as ((new & Hc & Hl & Hp & _) & _).
    exists new. repeat split; try assumption.
    intros c Hin. exists q. split; [assumption|].
    rewrite Forall_forall in Hp. now apply Hp.
  - cbn [snd]. exists []. rewrite app_nil_r. repeat split; [simpl; lia | intros c []].
Qed.

(** X15: when no record of the directory passes the town filter of an
    accepted request and the generator is missing or throws, the response
    is 200 with the apology as the answer and no sources. *)
Theorem ask_unknown_town
        (data : list ServiceRecord) (req : AskBody) (st : GenState) (q : jstring) :
  question req = JStr q -> trim q <> [] -> data <> [] ->
  stringOrFalsy (townPref req) ->
  filter (townOk toLowerCase
                 (townKey toLowerCase (Some (townText (townPref req))))) data = [] ->
  (chatModel st = None
   \/ exists e, fst (generateWithRetry service (promptFor toLowerCase data req q) st) = Throw e) ->
  fst (ask data req st)
  = Return (mkResponse 200 (AnswerBody (apology (asProp (townPref req))) [])).
Proof.
  intros Hq Hb Hd Ht Hf Hgen.
  rewrite (@ask_answers service toLowerCase data req st q Hq Hb Hd Ht).
  fold (scoredFor toLowerCase data req q). fold (promptFor toLowerCase data req q).
  assert (Hs : scoredFor toLowerCase data req q = [])
    by (unfold scoredFor; now apply retrieve_nil_of_filter_nil).
  rewrite Hs. cbn [map writeFallbackParagraph].
  destruct Hgen as [-> | (e & He)]; [reflexivity|].
  destruct (chatModel st); [|reflexivity].
  cbn [fst]. now rewrite He.
Qed.

Lemma ask_budget (data : list ServiceRecord) (req : AskBody) (st : GenState) :
  let st' := snd (ask data req st) in
  length (calls st') + retryBudget st' <= length (calls st) + retryBudget st + 1
  /\ (clientBound st -> clientBound st')
  /\ (currentModelName st' = currentModelName st
      \/ currentModelName st' = DEFAULT_MODEL)
  /\ (chatModel st' = None <-> chatModel st = None).
Proof.
  cbv zeta.
  destruct (ask_cases data req st) as [H | [H | [H | (q & _ & _ & _ & _ & H)]]];
    rewrite H; cbn [snd]; try (repeat split; [lia | auto | now left | auto | auto]).
  destruct (chatModel st) eqn:Ecm.
  - cbn [snd].
    destruct (generateWithRetry_step service (promptFor toLowerCase data req q) st)
      as (_ & Hb & Hl & Hn & Hcm).
    rewrite Ecm in Hcm. auto.
  - cbn [snd]. rewrite Ecm. repeat split; [lia | auto | now left].
Qed.

Lemma serveAll_budget (data : list ServiceRecord) (reqs : list AskBody) (st : GenState) :
  let st' := snd (serveAll service toLowerCase data reqs st) in
  length (calls st') + retryBudget st'
  <= length (calls st) + retryBudget st + length reqs
  /\ (clientBound st -> clientBound st')
  /\ (currentModelName st' = currentModelName st
      \/ currentModelName st' = DEFAULT_MODEL)
  /\ (chatModel st' = None <-> chatModel st = None)
  /\ length (fst (serveAll service toLowerCase data reqs st)) = length reqs.
Proof.
  cbv zeta. revert st.
  induction reqs as [|req reqs IH]; intros st.
  - simpl. repeat split; [lia | auto | now left | auto | auto].
  - simpl serveAll.
    pose proof (ask_budget data req st) as Hstep. cbv zeta in Hstep.
    destruct (ask data req st) as [o st1]. cbn [snd] in Hstep.
    specialize (IH st1).
    destruct (serveAll service toLowerCase data reqs st1) as [os st2].
    cbn [fst snd length] in *.
    destruct Hstep as (H1 & H2 & H3 & H4). destruct IH as (I1 & I2 & I3 & I4 & I5).
    split; [lia|]. split; [auto|].
    split; [destruct I3 as [->| ->]; [assumption | now right]|].
    split; [tauto | lia].
Qed.

(** X16: over any run of requests handled one after the other, the process
    sends at most one generator request per request served, plus one: it
    retries at most once in its lifetime, and never once its current model
    is the default. *)
Theorem serve_at_most_one_retry
        (data : list ServiceRecord) (reqs : list AskBody) (st : GenState) :
  let st' := snd (serveAll service toLowerCase data reqs st) in
  length (calls st') <= length (calls st) + length reqs + 1
  /\ (currentModelName st = DEFAULT_MODEL ->
      length (calls st') <= length (calls st) + length reqs).
Proof.
  cbv zeta. destruct (serveAll_budget data reqs st) as (H & _).
  pose proof (retryBudget_le st). split; [lia|].
  intros Hd. rewrite (retryBudget_default _ Hd) in H. lia.
Qed.
End EndpointMore.

Lemma ask_uses_generated_text_witness :
  fst (askHandler (alwaysAnswers []) asciiToLowerCase [lindenMeals] askMeals onDefault)
  = Return (mkResponse 200
              (AnswerBody
                 (u "Senior Meals Co serves Linden. Phone: 555-1111. More info: http://x")
                 [lindenMeals])).
Proof.
  apply (@ask_uses_generated_text (alwaysAnswers []) asciiToLowerCase
           [lindenMeals] askMeals onDefault (u "meals in Linden") [] DEFAULT_MODEL).
  - reflexivity.
  - vm_compute. discriminate.
  - discriminate.
  - left. eexists. reflexivity.
  - reflexivity.
  - reflexivity.
Defined.

Lemma ask_unknown_town_witness :
  fst (askHandler (alwaysFails rateLimited) asciiToLowerCase directory3 askElsewhere
                  onDefault)
  = Return (mkResponse 200 (AnswerBody (apology (Some (u "Paris"))) [])).
Proof.
  apply (@ask_unknown_town (alwaysFails rateLimited) asciiToLowerCase
           directory3 askElsewhere onDefault (u "meals")).
  - reflexivity.
  - vm_compute. discriminate.
  - discriminate.
  - left. eexists. reflexivity.
  - reflexivity.
  - right. exists rateLimited. reflexivity.
Defined.

Lemma serve_at_most_one_retry_witness :
  length (calls (snd (serveAll (alwaysFails notFound404) asciiToLowerCase directory3
                               [askMeals; askElsewhere; askMeals] onDefault)))
  <= 0 + 3.
Proof.
  destruct (serve_at_most_one_retry (alwaysFails notFound404) asciiToLowerCase directory3
              [askMeals; askElsewhere; askMeals] onDefault) as (_ & H).
  apply H. reflexivity.
Defined.

Example serve_retries_once :
  map fst (calls (snd (serveAll (alwaysFails notFound404) asciiToLowerCase directory3
                                [askMeals; askElsewhere; askMeals] onGeminiPro)))
  = [GEMINI_PRO; DEFAULT_MODEL; DEFAULT_MODEL; DEFAULT_MODEL].
Proof. vm_compute. reflexivity. Qed.

(** X17: provided the SDK accepts the default model name, from module
    start on and through any run of requests handled one after the other
    there is always a client, the model that [GET /health] reports is the
    one that client is bound to, and it is the configured model name or the
    default; [/health] reports the sizes of the two loaded arrays, and the
    requests sent to the generator number at most one per request served,
    plus one. *)
Theorem health_reports_client_model
        (sdk : jstring -> option JsError) (envModelName : jsprop)
        (service : nat -> jstring -> jstring -> outcome jstring)
        (toLowerCase : jstring -> jstring)
        (data : list ServiceRecord) (index : list IndexEntry) (reqs : list AskBody) :
  sdk DEFAULT_MODEL = None ->
  let st := snd (serveAll service toLowerCase data reqs (snd (startup sdk envModelName))) in
  let h := health data index st in
  (exists m, chatModel st = Some m /\ h_model h = m
             /\ (m = orElse envModelName DEFAULT_MODEL \/ m = DEFAULT_MODEL))
  /\ h_ok h = true /\ h_data h = length data /\ h_index h = length index
  /\ length (calls st) <= length reqs + 1.
Proof.
  intros Hsdk. cbv zeta.
  destruct (serveAll_budget service toLowerCase data reqs (snd (startup sdk envModelName)))
    as (Hb & Hc & Hn & Hcm & _).
  assert (Hst : clientBound (snd (startup sdk envModelName))
                /\ calls (snd (startup sdk envModelName)) = []
                /\ (currentModelName (snd (startup sdk envModelName))
                    = orElse envModelName DEFAULT_MODEL
                    \/ currentModelName (snd (startup sdk envModelName)) = DEFAULT_MODEL)
                /\ chatModel (snd (startup sdk envModelName)) <> None).
  { unfold startup, tryCatch, initModelVia, initModel, throw, ret. rewrite Hsdk.
    destruct (sdk (orElse envModelName DEFAULT_MODEL)) as [e|];
      cbn [snd calls chatModel currentModelName];
      (split; [intros m Hm; cbn [chatModel currentModelName] in *; now injection Hm|]);
      (split; [reflexivity|]); (split; [auto | discriminate]). }
  destruct Hst as (Hcb & Hcalls & Hname & Hsome).
  unfold health. cbn [h_model h_ok h_data h_index].
  split.
  - destruct (chatModel (snd (serveAll service toLowerCase data reqs
                                       (snd (startup sdk envModelName))))) as [m|] eqn:E.
    + exists m. split; [reflexivity|].
      pose proof (Hc Hcb m E) as Hm. split; [exact Hm|].
      rewrite <- Hm. destruct Hn as [-> | ->]; auto.
    + exfalso. apply Hsome. now apply Hcm.
  - repeat split.
    pose proof (retryBudget_le (snd (startup sdk envModelName))).
    rewrite Hcalls in Hb. simpl in Hb. lia.
Qed.

Lemma health_reports_client_model_witness :
  h_model (health directory3 (buildIndex directory3)
                  (snd (serveAll (alwaysFails notFound404) asciiToLowerCase directory3
                                 [askMeals]
                                 (snd (startup (refuses GEMINI_PRO) (Some GEMINI_PRO))))))
  = DEFAULT_MODEL
  /\ length (calls (snd (serveAll (alwaysFails notFound404) asciiToLowerCase directory3
                                   [askMeals]
                                   (snd (startup (refuses GEMINI_PRO) (Some GEMINI_PRO))))))
     <= 1 + 1.
Proof.
  destruct (@health_reports_client_model (refuses GEMINI_PRO) (Some GEMINI_PRO)
              (alwaysFails notFound404) asciiToLowerCase directory3
              (buildIndex directory3) [askMeals] eq_refl) as ((m & Hm & Hh & _) & _ & _ & _ & Hc).
  split; [|exact Hc].
  rewrite Hh. injection Hm as <-. reflexivity.
Defined.

(* ====================================================================== *)
(** * More on the ingestion filter *)
(* ====================================================================== *)

Lemma trimStart_idem (s : jstring) : trimStart (trimStart s) = trimStart s.
Proof.
  destruct (trimStart s) as [|c r] eqn:E; [reflexivity|].
  apply trimStart_nonspace. eapply trimStart_head; eassumption.
Qed.

Lemma trimEnd_idem (s : jstring) : trimEnd (trimEnd s) = trimEnd s.
Proof. unfold trimEnd. now rewrite rev_involutive, trimStart_idem. Qed.

Lemma trimStart_trimEnd (s : jstring) :
  trimStart s = s -> trimStart (trimEnd s) = trimEnd s.
Proof.
  intros Hs.
  destruct (trimEnd_decomp s) as (w & Hd & Hw).
  destruct (trimEnd s) as [|c r] eqn:E; [reflexivity|].
  apply trimStart_nonspace.
  rewrite Hd in Hs. simpl app in Hs.
  apply (@trimStart_head (c :: r ++ w) c (r ++ w)). exact Hs.
Qed.

Lemma trim_idem (s : jstring) : trim (trim s) = trim s.
Proof.
  unfold trim.
  rewrite (@trimStart_trimEnd (trimStart s) (trimStart_idem s)).
  apply trimEnd_idem.
Qed.

Lemma commaFree_trimStart (s : jstring) :
  commaFree s = true -> commaFree (trimStart s) = true.
Proof.
  induction s as [|c s IH]; simpl; [reflexivity|].
  intros H. destruct (isSpace c); [|exact H].
  apply andb_true_iff in H as [_ H]. now apply IH.
Qed.

Lemma commaFree_rev (s : jstring) : commaFree s = true -> commaFree (rev s) = true.
Proof.
  unfold commaFree. rewrite !forallb_forall. intros H x Hx.
  apply H. now apply in_rev.
Qed.

Lemma commaFree_trim (s : jstring) : commaFree s = true -> commaFree (trim s) = true.
Proof.
  intros H. unfold trim, trimEnd.
  now apply commaFree_rev, commaFree_trimStart, commaFree_rev, commaFree_trimStart.
Qed.

Lemma split_on_pieces_commaFree (s : jstring) :
  Forall (fun piece => commaFree piece = true) (split_on COMMA s).
Proof.
  induction s as [|c s IH]; simpl.
  - repeat constructor.
  - destruct (N.eqb c COMMA) eqn:E.
    + constructor; [reflexivity | exact IH].
    + destruct (split_on COMMA s) as [|h t]; [repeat constructor; simpl; now rewrite E|].
      inversion IH as [|? ? Hh Ht]; subst.
      constructor; [simpl; now rewrite E, Hh | exact Ht].
Qed.

Lemma split_on_commaFree (s : jstring) :
  commaFree s = true -> split_on COMMA s = [s].
Proof.
  induction s as [|c s IH]; simpl; [reflexivity|].
  intros H. apply andb_true_iff in H as [Hc Hs].
  apply negb_true_iff in Hc. rewrite Hc, (IH Hs). reflexivity.
Qed.

Lemma split_on_app_comma (a b : jstring) :
  commaFree a = true ->
  split_on COMMA (a ++ COMMA :: b) = a :: split_on COMMA b.
Proof.
  induction a as [|c a IH]; simpl; intros H.
  - reflexivity.
  - apply andb_true_iff in H as [Hc Ha].
    apply negb_true_iff in Hc. rewrite Hc, (IH Ha). reflexivity.
Qed.

Lemma areaEntries_tidy (input : jstring) :
  Forall (fun e => tidy e /\ commaFree e = true) (areaEntries input).
Proof.
  unfold areaEntries, tidy. rewrite Forall_forall. intros e He.
  apply filter_In in He as [Hin Hne].
  apply in_map_iff in Hin as (piece & <- & Hp).
  split; [split|].
  - destruct (trim piece); [discriminate | congruence].
  - apply trim_idem.
  - apply commaFree_trim.
    pose proof (split_on_pieces_commaFree input) as H.
    rewrite Forall_forall in H. now apply H.
Qed.

Lemma areaEntries_join (l : list jstring) :
  Forall (fun e => tidy e /\ commaFree e = true) l ->
  areaEntries (join (u ", ") l) = l.
Proof.
  unfold areaEntries.
  induction l as [|e [|e2 rest] IH]; intros H.
  - reflexivity.
  - inversion H as [|? ? [[Hne Ht] Hc] _]; subst.
    simpl join. rewrite (split_on_commaFree _ Hc). simpl. rewrite Ht.
    destruct e; [congruence | reflexivity].
  - inversion H as [|? ? [[Hne Ht] Hc] Hrest]; subst.
    change (join (u ", ") (e :: e2 :: rest))
      with (e ++ COMMA :: [32%N] ++ join (u ", ") (e2 :: rest)).
    rewrite (split_on_app_comma _ _ Hc).
    rewrite split_on_allSpace_app by reflexivity.
    specialize (IH Hrest).
    destruct (split_on COMMA (join (u ", ") (e2 :: rest))) as [|h t] eqn:E.
    + destruct (split_on_nonempty COMMA (join (u ", ") (e2 :: rest))) as (h & t & E').
      congruence.
    + cbn [map]. rewrite trim_allSpace_app by reflexivity.
      cbn [map] in IH. cbn [filter]. rewrite Ht.
      destruct e as [|c e]; [congruence|]. cbn [nonEmpty]. f_equal. exact IH.
Qed.

(** X18: [trim] is idempotent, and every text field of a sanitised row is a
    string that [trim] leaves unchanged: ingestion removes the white space
    around every value and leaves no field undefined. *)
Theorem sanitize_fields_trimmed (r : CsvRow) :
  (forall s, trim (trim s) = trim s)
  /\ Forall (fun v => exists s, v = Some s /\ trim s = s)
            [town (sanitize r); category (sanitize r); name (sanitize r);
             address (sanitize r); phone (sanitize r); hours (sanitize r);
             url (sanitize r); notes (sanitize r)].
Proof.
  split; [apply trim_idem|].
  unfold sanitize, clean. cbn [town category name address phone hours url notes].
  repeat constructor; eexists; (split; [reflexivity | apply trim_idem]).
Qed.

(** X19: the area of a sanitised row is always a list, and each of its
    entries is non-empty, has no white space around it and holds no
    comma. *)
Theorem sanitize_area_entries (r : CsvRow) :
  exists l, area (sanitize r) = Some l
            /\ Forall (fun e => e <> [] /\ trim e = e /\ commaFree e = true) l.
Proof.
  exists (parseArea (r_area r)). split; [reflexivity|].
  rewrite parseArea_areaEntries.
  pose proof (areaEntries_tidy (orElse (r_area r) [])) as H.
  rewrite Forall_forall in *. intros e He.
  destruct (H e He) as [[Hne Ht] Hc]. auto.
Qed.

(** X20: the area list survives its rendering: joining the area of a
    sanitised row with ", ", as the prompt does, and parsing the text as
    the ingestion does gives the same list back. *)
Theorem area_join_round_trip (r : CsvRow) :
  parseArea (Some (join (u ", ") (parseArea (r_area r)))) = parseArea (r_area r).
Proof.
  rewrite (parseArea_areaEntries (Some _)).
  assert (Ho : forall s, areaEntries (orElse (Some s) []) = areaEntries s)
    by (intros [|c s]; reflexivity).
  rewrite Ho. apply areaEntries_join.
  rewrite parseArea_areaEntries. apply areaEntries_tidy.
Qed.

Lemma items_sanitized (rows : list CsvRow) (x : ServiceRecord) :
  In x (items rows) -> truthy (town x) = true /\ truthy (category x) = true
                       /\ truthy (url x) = true.
Proof.
  unfold items. intros H. apply filter_In in H as [_ Hk].
  unfold keep in Hk. apply andb_true_iff in Hk as [Hk Hu].
  apply andb_true_iff in Hk as [Ht Hc]. auto.
Qed.

(** X21: an ingested record always shows its link: as the top-ranked
    record its fallback paragraph carries "More info: " with its url, and
    its line of the prompt carries "Link: " with its url. *)
Theorem ingested_record_shows_link
        (rows : list CsvRow) (x : ServiceRecord) (k : nat)
        (rest : list ScoredRecord) (q tp : jsprop) :
  In x (items rows) ->
  includes (writeFallbackParagraph (mkScored x k :: rest) q tp)
           (u "More info: " ++ tpl (url x)) = true
  /\ includes (contextLine (mkScored x k)) (u "Link: " ++ tpl (url x) ++ u "; ") = true
  /\ tpl (url x) <> [].
Proof.
  intros Hx. destruct (items_sanitized _ _ Hx) as (_ & _ & Hu).
  split; [|split].
  - rewrite writeFallbackParagraph_composeFallback. unfold composeFallback.
    cbv zeta. cbn [item]. apply includes_join.
    do 5 (apply in_or_app; right).
    apply (@whenPresent_In (url x) (fun l => u "More info: " ++ l) Hu).
  - rewrite contextLine_segments. cbn [item]. apply includes_concat.
    unfold lineSegments. do 3 (apply in_or_app; right). apply in_or_app; left.
    apply (@whenPresent_In (url x) (fun l => u "Link: " ++ l ++ u "; ") Hu).
  - destruct (url x) as [[|c l]|]; simpl in *; congruence.
Qed.

Lemma ingested_record_shows_link_witness :
  includes (writeFallbackParagraph [mkScored (sanitize rowComplete) 1] None None)
           (u "More info: http://x") = true.
Proof.
  apply (@ingested_record_shows_link [rowNoUrl; rowComplete] (sanitize rowComplete) 1
           [] None None).
  vm_compute. left. reflexivity.
Defined.

Example area_round_trip_run :
  parseArea (Some (u " Linden , ,Rahway,  ")) = [u "Linden"; u "Rahway"]
  /\ join (u ", ") [u "Linden"; u "Rahway"] = u "Linden, Rahway"
  /\ parseArea (Some (u "Linden, Rahway")) = [u "Linden"; u "Rahway"].
Proof. repeat split; reflexivity. Qed.

(* ====================================================================== *)
(** * What the retry test accepts, and letter case in retrieval *)
(* ====================================================================== *)

Lemma isSpace_letter (n : N) : (65 <= n <= 122)%N -> isSpace n = false.
Proof.
  intros Hn. destruct (isSpace n) eqn:E; [|reflexivity].
  unfold isSpace in E. apply orb_true_iff in E as [E|E].
  - apply existsb_exists in E as (k & Hk & Hkn). apply N.eqb_eq in Hkn. subst k.
    simpl in Hk. repeat (destruct Hk as [Hk|Hk]; [lia|]). destruct Hk.
  - apply andb_true_iff in E as [E _]. apply N.leb_le in E. lia.
Qed.

Lemma isSpace_lower (c : N) : isSpace (asciiLowerUnit c) = isSpace c.
Proof.
  unfold asciiLowerUnit.
  destruct ((65 <=? c) && (c <=? 90))%N eqn:E; [|reflexivity].
  apply andb_true_iff in E as [E1 E2]. apply N.leb_le in E1, E2.
  rewrite !isSpace_letter by lia. reflexivity.
Qed.

Lemma trimStart_lower (s : jstring) :
  trimStart (asciiToLowerCase s) = asciiToLowerCase (trimStart s).
Proof.
  induction s as [|c s IH]; [reflexivity|].
  simpl. rewrite isSpace_lower. destruct (isSpace c); [exact IH | reflexivity].
Qed.

Lemma startsWithCI_lower (s pat : jstring) :
  startsWithCI s pat = startsWith (asciiToLowerCase s) pat.
Proof.
  revert s. induction pat as [|p pat IH]; intros s; [reflexivity|].
  destruct s as [|c s]; [reflexivity|]. simpl.
  rewrite IH. f_equal. apply N.eqb_sym.
Qed.

Lemma notFoundHere_lower (s : jstring) :
  notFoundHere s
  = (startsWith (asciiToLowerCase s) (u "not")
     && startsWith (trimStart (skipn 3 (asciiToLowerCase s))) (u "found"))
    || startsWith s (u "404").
Proof.
  unfold notFoundHere. rewrite !startsWithCI_lower, <- trimStart_lower.
  unfold asciiToLowerCase. now rewrite skipn_map.
Qed.

Lemma isNotFound_cons (c : N) (s : jstring) :
  isNotFound (c :: s) = notFoundHere (c :: s) || isNotFound s.
Proof. reflexivity. Qed.

Lemma startsWith_includes (s t : jstring) : startsWith s t = true -> includes s t = true.
Proof. intros H. destruct s; simpl; now rewrite H. Qed.

Lemma notFoundHere_shape (s : jstring) :
  notFoundHere s = true ->
  (exists ws post, allSpace ws = true
                   /\ asciiToLowerCase s = u "not" ++ ws ++ u "found" ++ post)
  \/ startsWith s (u "404") = true.
Proof.
  rewrite notFoundHere_lower. intros H.
  apply orb_true_iff in H as [H | H]; [left | now right].
  apply andb_true_iff in H as [Hn Hf].
  destruct (startsWith_split _ _ Hn) as (r & Hr).
  rewrite Hr in Hf. change (skipn 3 (u "not" ++ r)) with r in Hf.
  destruct (startsWith_split _ _ Hf) as (post & Hpost).
  destruct (trimStart_decomp r) as (ws & Hws & Hall).
  exists ws, post. split; [assumption|]. now rewrite Hr, Hws, Hpost.
Qed.

Lemma shape_notFoundHere (s ws post : jstring) :
  allSpace ws = true ->
  asciiToLowerCase s = u "not" ++ ws ++ u "found" ++ post ->
  notFoundHere s = true.
Proof.
  intros Hall Hs. rewrite notFoundHere_lower, Hs.
  change (skipn 3 (u "not" ++ ws ++ u "found" ++ post)) with (ws ++ u "found" ++ post).
  rewrite trimStart_allSpace_app by assumption.
  rewrite startsWith_app.
  change (trimStart (u "found" ++ post)) with (u "found" ++ post).
  now rewrite startsWith_app.
Qed.

(** X22: the test that decides a retry, [/not\s*found|404/i], accepts a
    text exactly when its ASCII-lower-cased form holds "not", then any run
    of white space (none is enough), then "found", or when the text holds
    "404". *)
Theorem isNotFound_accepts (msg : jstring) :
  isNotFound msg = true
  <-> (exists pre ws post,
         allSpace ws = true
         /\ asciiToLowerCase msg = pre ++ u "not" ++ ws ++ u "found" ++ post)
      \/ includes msg (u "404") = true.
Proof.
  split.
  - induction msg as [|c msg IH].
    + intros H. discriminate.
    + rewrite isNotFound_cons. intros H. apply orb_true_iff in H as [H | H].
      * destruct (notFoundHere_shape _ H) as [(ws & post & Hall & Hs) | H4].
        -- left. exists [], ws, post. auto.
        -- right. now apply startsWith_includes.
      * destruct (IH H) as [(pre & ws & post & Hall & Hs) | H4].
        -- left. exists (asciiLowerUnit c :: pre), ws, post. split; [assumption|].
           change (asciiToLowerCase (c :: msg))
             with (asciiLowerUnit c :: asciiToLowerCase msg).
           now rewrite Hs.
        -- right. simpl. rewrite H4. apply orb_true_r.
  - intros [(pre & ws & post & Hall & Hs) | H4].
    + revert msg Hs. induction pre as [|p pre IH]; intros msg Hs.
      * destruct msg as [|c msg]; [discriminate|].
        rewrite isNotFound_cons.
        now rewrite (shape_notFoundHere (c :: msg) ws post Hall Hs).
      * destruct msg as [|c msg]; [discriminate|].
        rewrite isNotFound_cons.
        change (asciiToLowerCase (c :: msg))
          with (asciiLowerUnit c :: asciiToLowerCase msg) in Hs.
        rewrite <- app_comm_cons in Hs. injection Hs as _ Hs.
        rewrite (IH msg Hs). apply orb_true_r.
    + induction msg as [|c msg IH]; [discriminate|].
      rewrite isNotFound_cons.
      change (includes (c :: msg) (u "404"))
        with (startsWith (c :: msg) (u "404") || includes msg (u "404")) in H4.
      apply orb_true_iff in H4 as [H4 | H4].
      * rewrite notFoundHere_lower, H4. now rewrite orb_true_r.
      * rewrite (IH H4). apply orb_true_r.
Qed.

Lemma asciiToLowerCase_idem (s : jstring) :
  asciiToLowerCase (asciiToLowerCase s) = asciiToLowerCase s.
Proof.
  unfold asciiToLowerCase. rewrite map_map. apply map_ext. intros c.
  unfold asciiLowerUnit.
  destruct ((65 <=? c) && (c <=? 90))%N eqn:E; [|now rewrite E].
  apply andb_true_iff in E as [E1 E2]. apply N.leb_le in E1, E2.
  replace ((65 <=? c + 32) && (c + 32 <=? 90))%N with false; [reflexivity|].
  symmetry. apply andb_false_iff. right. apply N.leb_gt. lia.
Qed.

Section LetterCase.
Variable toLowerCase : jstring -> jstring.
Hypothesis toLowerCase_idem : forall s, toLowerCase (toLowerCase s) = toLowerCase s.

Lemma lowered_orElse (s : jstring) :
  toLowerCase (orElse (Some (toLowerCase s)) []) = toLowerCase (orElse (Some s) []).
Proof.
  destruct s as [|c s]; cbn [orElse].
  - destruct (toLowerCase []) as [|d r] eqn:E; [now rewrite E|].
    rewrite <- E. now rewrite toLowerCase_idem.
  - destruct (toLowerCase (c :: s)) as [|d r] eqn:E.
    + rewrite <- E at 1. rewrite <- E. now rewrite toLowerCase_idem, E.
    + rewrite <- E. now rewrite toLowerCase_idem.
Qed.

(** X23: letter case does not matter to the retriever: with a
    [toLowerCase] that is idempotent, a question and a town filter give
    the same result as their lower-cased forms. *)
Theorem retrieve_ignores_letter_case (data : list ServiceRecord) (q t : jstring) :
  keywordRetrieve toLowerCase data (Some (toLowerCase q)) (Some (toLowerCase t))
  = keywordRetrieve toLowerCase data (Some q) (Some t).
Proof.
  unfold keywordRetrieve, tokenize, townKey. now rewrite !lowered_orElse.
Qed.
End LetterCase.

Lemma retrieve_ignores_letter_case_witness :
  keywordRetrieve asciiToLowerCase directory3 (Some (u "meals in linden")) (Some (u "linden"))
  = keywordRetrieve asciiToLowerCase directory3 (Some (u "MEALS in Linden")) (Some (u "LINDEN")).
Proof.
  exact (@retrieve_ignores_letter_case asciiToLowerCase asciiToLowerCase_idem directory3
           (u "MEALS in Linden") (u "LINDEN")).
Defined.
(* ====================================================================== *)
(** * Words, occurrences and kept entries *)
(* ====================================================================== *)

Lemma orElse_fieldText (v : jsprop) : orElse v [] = fieldText v.
Proof. destruct v as [[|c s]|]; reflexivity. Qed.

Lemma substring_includes (t s : jstring) : substring t s <-> includes s t = true.
Proof. unfold substring. symmetry. apply includes_iff. Qed.

Lemma allSpace_app (a b : jstring) :
  allSpace (a ++ b) = true <-> allSpace a = true /\ allSpace b = true.
Proof. unfold allSpace. rewrite forallb_app. apply andb_true_iff. Qed.

Lemma visible_head (c : N) (w : jstring) : visible (c :: w) = true -> isSpace c = false.
Proof.
  unfold visible. simpl. intros H. apply andb_true_iff in H as [H _].
  now apply negb_true_iff in H.
Qed.

Lemma Words_space (c : N) (s : jstring) (ts : list jstring) :
  isSpace c = true -> Words s ts -> Words (c :: s) ts.
Proof.
  intros Hc H. destruct H as [ws Hws | ws w rest ts Hws Hw Hv He Hr].
  - apply Words_none. unfold allSpace in *. simpl. now rewrite Hc.
  - change (c :: ws ++ w ++ rest) with ((c :: ws) ++ w ++ rest).
    apply Words_cons; try assumption.
    unfold allSpace in *. simpl. now rewrite Hc.
Qed.

(** The first piece of [split_ws] is the visible head of the text, and the
    other pieces that are not empty are the words of what follows. *)
Lemma split_ws_words (s : jstring) :
  exists h t rest,
    split_ws s = h :: t /\ s = h ++ rest /\ visible h = true /\ endsWord rest
    /\ Words rest (filter nonEmpty t).
Proof.
  induction s as [|c s IH].
  - exists [], [], []. repeat split. now apply Words_none.
  - destruct IH as (h & t & rest & Hsp & Hs & Hv & He & Hw).
    simpl split_ws. destruct (isSpace c) eqn:Ec.
    + destruct s as [|d s'].
      * exists [], [[]], [c]. repeat split; [exact Ec|].
        simpl. apply Words_none. unfold allSpace. simpl. now rewrite Ec.
      * destruct (isSpace d) eqn:Ed.
        -- (* the run of white space goes on *)
           assert (Hh : h = []).
           { destruct h as [|x h]; [reflexivity|].
             simpl in Hs. injection Hs as <- _.
             apply visible_head in Hv. congruence. }
           subst h. simpl in Hs. subst rest.
           exists [], t, (c :: d :: s'). rewrite Hsp. repeat split; [exact Ec|].
           now apply Words_space.
        -- (* a word starts after this white space *)
           destruct h as [|x h].
           { simpl in Hs. subst rest. simpl in He. congruence. }
           exists [], ((x :: h) :: t), (c :: d :: s'). rewrite Hsp.
           repeat split; [exact Ec|].
           cbn [filter nonEmpty]. rewrite Hs.
           change (c :: (x :: h) ++ rest) with ([c] ++ (x :: h) ++ rest).
           apply Words_cons; try assumption; try discriminate.
           unfold allSpace. simpl. now rewrite Ec.
    + rewrite Hsp. exists (c :: h), t, rest. repeat split; try assumption.
      * simpl. now rewrite Hs.
      * unfold visible in *. simpl. now rewrite Ec, Hv.
Qed.

Lemma split_ws_tokens (s : jstring) : Words s (filter nonEmpty (split_ws s)).
Proof.
  destruct (split_ws_words s) as (h & t & rest & Hsp & Hs & Hv & He & Hw).
  rewrite Hsp. destruct h as [|x h].
  - simpl. simpl in Hs. now subst rest.
  - cbn [filter nonEmpty]. rewrite Hs.
    change ((x :: h) ++ rest) with ([] ++ (x :: h) ++ rest).
    apply Words_cons; try assumption; [reflexivity | discriminate].
Qed.

Lemma allSpace_visible_clash (ws a b : jstring) (c : N) :
  allSpace ws = true -> ws = a ++ c :: b -> isSpace c = false -> False.
Proof.
  intros Hws -> Hc. apply allSpace_app in Hws as [_ H].
  unfold allSpace in H. simpl in H. rewrite Hc in H. discriminate.
Qed.

Lemma word_start (ws w rest : jstring) :
  allSpace ws = true -> w <> [] -> visible w = true ->
  trimStart (ws ++ w ++ rest) = w ++ rest.
Proof.
  intros Hws Hw Hv. rewrite trimStart_allSpace_app by assumption.
  destruct w as [|c w]; [congruence|].
  apply trimStart_nonspace. now apply visible_head with (w := w).
Qed.

Lemma word_split_unique (w w' rest rest' : jstring) :
  visible w = true -> visible w' = true -> endsWord rest -> endsWord rest' ->
  w ++ rest = w' ++ rest' -> w = w' /\ rest = rest'.
Proof.
  revert w'. induction w as [|c w IH]; intros [|c' w'] Hv Hv' He He' H.
  - auto.
  - simpl in H. subst rest. simpl in He. apply visible_head in Hv'. congruence.
  - simpl in H. subst rest'. simpl in He'. apply visible_head in Hv. congruence.
  - simpl in H. injection H as <- H.
    assert (Hw : visible w = true)
      by (unfold visible in *; simpl in Hv; now apply andb_true_iff in Hv as [_ Hv]).
    assert (Hw' : visible w' = true)
      by (unfold visible in *; simpl in Hv'; now apply andb_true_iff in Hv' as [_ Hv']).
    destruct (IH w' Hw Hw' He He' H) as [-> ->]. auto.
Qed.

(** A text has one list of words. *)
Lemma Words_unique (s : jstring) (ts ts' : list jstring) :
  Words s ts -> Words s ts' -> ts = ts'.
Proof.
  intros H. revert ts'.
  induction H as [ws Hws | ws w rest ts Hws Hw Hv He Hr IH]; intros ts' H'.
  - inversion H' as [ws' Hws' E | ws' w' rest' ts0 Hws' Hw' Hv' He' Hr' E]; subst.
    + reflexivity.
    + exfalso. destruct w' as [|c w']; [congruence|].
      eapply allSpace_visible_clash; [exact Hws | reflexivity |].
      now apply visible_head with (w := w').
  - inversion H' as [ws' Hws' E | ws' w' rest' ts0 Hws' Hw' Hv' He' Hr' E]; subst.
    + exfalso. destruct w as [|c w]; [congruence|].
      eapply allSpace_visible_clash; [exact Hws' | reflexivity |].
      now apply visible_head with (w := w).
    + assert (Ht : w' ++ rest' = w ++ rest).
      { rewrite <- (word_start ws' rest' Hws' Hw' Hv'), E.
        now apply word_start. }
      destruct (word_split_unique w' w rest' rest Hv' Hv He' He Ht) as [-> ->].
      f_equal. now apply IH.
Qed.



Lemma filterBoolean_nonempty (l : list jsprop) :
  Forall (fun s => s <> []) (filterBoolean l).
Proof.
  induction l as [|[[|c s]|] l IH]; simpl; auto.
  constructor; [discriminate | exact IH].
Qed.

Lemma join_spaced (l : list jsprop) :
  join (u " ") (filterBoolean l) = spaced (map fieldText l).
Proof.
  induction l as [|v l IH]; [reflexivity|].
  destruct v as [[|c s]|]; cbn [filterBoolean map fieldText spaced]; try exact IH.
  rewrite <- IH.
  pose proof (filterBoolean_nonempty l) as Hne.
  destruct (filterBoolean l) as [|x rest] eqn:E; [reflexivity|].
  inversion Hne as [|? ? Hx _]; subst.
  pose proof (@join_nonempty (u " ") x rest Hx) as Hj.
  change (join (u " ") ((c :: s) :: x :: rest))
    with ((c :: s) ++ [SPACE] ++ join (u " ") (x :: rest)).
  destruct (join (u " ") (x :: rest)); [congruence | reflexivity].
Qed.

Lemma Kept_filter (A : Type) (P : A -> Prop) (f : A -> bool) (l : list A) :
  (forall x, f x = true <-> P x) -> Kept P l (filter f l).
Proof.
  intros Hf. induction l as [|x l IH]; simpl; [constructor|].
  destruct (f x) eqn:E.
  - apply Kept_keep; [now apply Hf | exact IH].
  - apply Kept_drop; [|exact IH]. intros Hp. apply Hf in Hp. congruence.
Qed.

Lemma Kept_unique (A : Type) (P : A -> Prop) (l k k' : list A) :
  Kept P l k -> Kept P l k' -> k = k'.
Proof.
  intros H. revert k'. induction H as [|x l k Hp _ IH | x l k Hp _ IH];
    intros k' H'; inversion H'; subst; try contradiction; auto.
  f_equal. now apply IH.
Qed.

Lemma Words_nil (ts : list jstring) : Words [] ts -> ts = [].
Proof.
  intros H. apply (Words_unique H). now apply Words_none.
Qed.

(* ====================================================================== *)
(** * The retriever against the town filter, the words and the record text *)
(* ====================================================================== *)

Section RetrievalAgainstSpec.
Variable toLowerCase : jstring -> jstring.

Lemma haystack_recordText (d : ServiceRecord) :
  haystack toLowerCase d = toLowerCase (recordText d).
Proof. unfold haystack, recordText. now rewrite join_spaced. Qed.

Lemma tokenize_words (q : jsprop) :
  Words (toLowerCase (fieldText q)) (tokenize toLowerCase q).
Proof. unfold tokenize. rewrite orElse_fieldText. apply split_ws_tokens. Qed.


Hypothesis toLowerCase_nil : toLowerCase [] = [].

Lemma townOk_passes (tp : jsprop) (d : ServiceRecord) :
  townOk toLowerCase (townKey toLowerCase tp) d = true
  <-> passesTownFilter toLowerCase tp d.
Proof.
  unfold townOk, townKey, passesTownFilter. rewrite !orElse_fieldText.
  destruct tp as [[|c t]|]; cbn [fieldText];
    try (rewrite toLowerCase_nil; simpl; tauto).
  rewrite substring_includes. split.
  - intros H. apply orb_true_iff in H as [H | H]; [|exact H].
    destruct (toLowerCase (c :: t)); [|discriminate].
    apply includes_iff. exists [], (toLowerCase (fieldText (town d))). reflexivity.
  - intros H. rewrite H. apply orb_true_r.
Qed.

Lemma kept_filtered (data : list ServiceRecord) (tp : jsprop) :
  Kept (passesTownFilter toLowerCase tp) data
       (filter (townOk toLowerCase (townKey toLowerCase tp)) data).
Proof. apply Kept_filter. intros d. apply townOk_passes. Qed.

Lemma nothingMatches_noOverlap (data : list ServiceRecord) (q tp : jsprop) :
  nothingMatches toLowerCase data q tp -> noOverlap toLowerCase data q tp.
Proof.
  intros H d Hd Hok t Ht. rewrite haystack_recordText.
  destruct (includes (toLowerCase (recordText d)) t) eqn:E; [|reflexivity].
  exfalso. apply (H d Hd (proj1 (townOk_passes tp d) Hok)
                    (tokenize toLowerCase q) (tokenize_words q) t Ht).
  now apply substring_includes.
Qed.

(** C2: when no word of the lower-cased question occurs in the text of any
    record that passes the town filter (a record passes when there is no
    filter text or its lower-cased town holds the lower-cased filter text),
    [keywordRetrieve] returns the first 2 of the records that pass, in
    directory order, each with score 1. The empty question is such a
    question; with no filter text every record passes, so these are the
    first 2 records of the directory; the list of records that pass is
    unique. And for any question, if some record of the directory passes
    the filter, the result holds 1 or 2 records, never none. *)
Theorem retrieve_fallback_first_two (data : list ServiceRecord) (q tp : jsprop) :
  (nothingMatches toLowerCase data q tp ->
     exists kept,
       Kept (passesTownFilter toLowerCase tp) data kept
       /\ keywordRetrieve toLowerCase data q tp
          = map (fun it => mkScored it 1) (firstn 2 kept))
  /\ (fieldText q = [] -> nothingMatches toLowerCase data q tp)
  /\ (fieldText tp = [] -> Kept (passesTownFilter toLowerCase tp) data data)
  /\ (forall kept kept',
        Kept (passesTownFilter toLowerCase tp) data kept ->
        Kept (passesTownFilter toLowerCase tp) data kept' -> kept = kept')
  /\ ((exists d, In d data /\ passesTownFilter toLowerCase tp d) ->
      1 <= length (keywordRetrieve toLowerCase data q tp) <= 2).
Proof.
  split; [|split; [|split; [|split]]].
  - intros H.
    exists (filter (townOk toLowerCase (townKey toLowerCase tp)) data).
    split; [apply kept_filtered|].
    rewrite keywordRetrieve_eq.
    now rewrite (@noOverlap_matched toLowerCase data q tp (nothingMatches_noOverlap H)).
  - intros Hq d _ _ ts Hts t Ht. rewrite Hq, toLowerCase_nil in Hts.
    rewrite (Words_nil Hts) in Ht. destruct Ht.
  - intros Htp.
    replace data with (filter (townOk toLowerCase (townKey toLowerCase tp)) data) at 2;
      [apply kept_filtered|].
    apply (@no_filter_keeps_all toLowerCase toLowerCase_nil).
    destruct tp as [[|c t]|]; simpl in *; congruence.
  - intros kept kept'. apply Kept_unique.
  - intros (d & Hd & Hp).
    assert (Hne : filter (townOk toLowerCase (townKey toLowerCase tp)) data <> []).
    { intros Hf. apply townOk_passes in Hp.
      assert (Hin : In d (filter (townOk toLowerCase (townKey toLowerCase tp)) data))
        by (apply filter_In; auto).
      rewrite Hf in Hin. destruct Hin. }
    rewrite keywordRetrieve_eq.
    destruct (matched toLowerCase (tokenize toLowerCase q) (townKey toLowerCase tp) data)
      as [|m ms] eqn:E.
    + unfold firstTwoFiltered. rewrite length_map, length_firstn.
      destruct (filter (townOk toLowerCase (townKey toLowerCase tp)) data) as [|x [|y l]];
        [congruence | simpl; lia | simpl; lia].
    + rewrite length_firstn.
      rewrite (Permutation_length (js_sort_perm byScoreDesc (m :: ms))).
      cbn [length]. lia.
Qed.
End RetrievalAgainstSpec.

Lemma not_substring (t s : jstring) : includes s t = false -> ~ substring t s.
Proof. intros H Hs. apply substring_includes in Hs. congruence. Qed.

Lemma retrieve_fallback_first_two_witness :
  keywordRetrieve asciiToLowerCase directory3 (Some (u "zzz  ZZZ")) (Some (u "RAHWAY"))
  = [mkScored rahwayMeals 1]
  /\ keywordRetrieve asciiToLowerCase directory3 (Some (u "zzz")) None
     = [mkScored lindenMeals 1; mkScored lindenRides 1]
  /\ 1 <= length (keywordRetrieve asciiToLowerCase directory3 (Some (u "rides"))
                                  (Some (u "LINDEN"))) <= 2.
Proof.
  assert (Hzzz : forall q tp, tokenize asciiToLowerCase q = [u "zzz"] \/
                              tokenize asciiToLowerCase q = [u "zzz"; u "zzz"] ->
                 nothingMatches asciiToLowerCase directory3 q tp).
  { intros q tp Hq d Hd _ ts Hts t Ht.
    rewrite (Words_unique Hts (tokenize_words asciiToLowerCase q)) in Ht.
    assert (Et : t = u "zzz")
      by (destruct Hq as [Hq | Hq]; rewrite Hq in Ht; simpl in Ht; intuition).
    subst t. apply not_substring.
    destruct Hd as [<-|[<-|[<-|[]]]]; reflexivity. }
  split; [|split].
  - destruct (@retrieve_fallback_first_two asciiToLowerCase eq_refl directory3
                (Some (u "zzz  ZZZ")) (Some (u "RAHWAY")))
      as (H1 & _ & _ & Hu & _).
    destruct H1 as (kept & Hk & ->); [apply Hzzz; right; reflexivity|].
    rewrite (Hu kept [rahwayMeals] Hk); [reflexivity|].
    apply Kept_drop; [apply not_substring; reflexivity|].
    apply Kept_drop; [apply not_substring; reflexivity|].
    apply Kept_keep; [|apply Kept_nil].
    exists [], []. reflexivity.
  - destruct (@retrieve_fallback_first_two asciiToLowerCase eq_refl directory3
                (Some (u "zzz")) None)
      as (H1 & _ & H3 & Hu & _).
    destruct H1 as (kept & Hk & ->); [apply Hzzz; left; reflexivity|].
    rewrite (Hu kept directory3 Hk (H3 eq_refl)). reflexivity.
  - destruct (@retrieve_fallback_first_two asciiToLowerCase eq_refl directory3
                (Some (u "rides")) (Some (u "LINDEN")))
      as (_ & _ & _ & _ & H5).
    apply H5. exists lindenMeals. split; [now left|].
    exists [], []. reflexivity.
Defined.


